(** * msg_split: splitting an HTML message into tag-balanced fragments

    A shallow embedding of [src/msg_split.py]: the regular-expression
    tokenizer of [split_message], the open-tag tracker [HTMLFragmentParser],
    the two renderers [rebuild_open_tags] / [rebuild_close_tags] and the
    generator [split_message] itself, followed by the properties of the
    specification that concern them.

    Conventions.
    - Python [str] is [string] over the ASCII alphabet; the classes [\w]
      and [\s] are their ASCII parts, and a character code above 127
      belongs to neither.
    - Python [int] is [Z]; [len] is [Z.of_nat (String.length _)].
    - A generator is the list of the values it yields, in order.
    - The scanner [HTMLFragmentParser] inherits from the standard library
      is modelled token by token ([HTMLParser.classify]); the loop is
      also given over an arbitrary scanner ([scanner], [Loop]), whose
      [feed] may raise, for the properties that hold whatever the scanner
      announces. *)

From Stdlib Require Import String Ascii List ZArith Lia Bool.
Import ListNotations.

Local Open Scope string_scope.
Local Open Scope Z_scope.

(** ** Characters *)

Module Chars.

Definition lt_sign : ascii := "<"%char.
Definition gt_sign : ascii := ">"%char.
Definition slash : ascii := "/"%char.

Definition in_range (lo hi : nat) (c : ascii) : bool :=
  let n := nat_of_ascii c in (Nat.leb lo n && Nat.leb n hi)%bool.

Definition is_upper (c : ascii) : bool := in_range 65 90 c.
Definition is_lower (c : ascii) : bool := in_range 97 122 c.
Definition is_digit (c : ascii) : bool := in_range 48 57 c.

(** [[a-zA-Z]] *)
Definition is_alpha (c : ascii) : bool := (is_upper c || is_lower c)%bool.

(** [\w] (ASCII part) *)
Definition is_word (c : ascii) : bool :=
  (is_alpha c || is_digit c || Ascii.eqb c "_"%char)%bool.

(** [\s]: space, tab, line feed, vertical tab, form feed, carriage
    return, and the four separators FS, GS, RS, US *)
Definition is_space (c : ascii) : bool :=
  let n := nat_of_ascii c in
  (Nat.eqb n 32 || in_range 9 13 c || in_range 28 31 c)%bool.

(** [str.lower] on one character *)
Definition lower (c : ascii) : ascii :=
  if is_upper c then ascii_of_nat (nat_of_ascii c + 32) else c.

End Chars.

Fixpoint lower (s : string) : string :=
  match s with
  | EmptyString => EmptyString
  | String c r => String (Chars.lower c) (lower r)
  end.

(** [len(s)] *)
Definition len (s : string) : Z := Z.of_nat (String.length s).

(** [sep.join(parts)] *)
Definition join (sep : string) (parts : list string) : string :=
  String.concat sep parts.

(** ** The tokenizer: [re.finditer(r"(</?\w+[^>]*>|[^<]+)", source)] *)

Module Tokenizer.

(** [[^<]+] at the head of [s]: the longest prefix without ["<"], and
    what follows it. *)
Fixpoint text_run (s : string) : string * string :=
  match s with
  | EmptyString => (EmptyString, EmptyString)
  | String c r =>
      if Ascii.eqb c Chars.lt_sign then (EmptyString, s)
      else let (t, rest) := text_run r in (String c t, rest)
  end.

(** The prefix of [s] up to and including its first [">"], if any. *)
Fixpoint through_gt (s : string) : option (string * string) :=
  match s with
  | EmptyString => None
  | String c r =>
      if Ascii.eqb c Chars.gt_sign then Some (String c EmptyString, r)
      else match through_gt r with
           | Some (t, rest) => Some (String c t, rest)
           | None => None
           end
  end.

(** Does [s] start with ["<"], an optional ["/"] and a word character? *)
Definition tag_opens (s : string) : bool :=
  match s with
  | String c0 (String c1 r) =>
      (Ascii.eqb c0 Chars.lt_sign &&
       (if Ascii.eqb c1 Chars.slash
        then match r with
             | String c2 _ => Chars.is_word c2
             | EmptyString => false
             end
        else Chars.is_word c1))%bool
  | _ => false
  end.

(** [</?\w+[^>]*>] at the head of [s].  Neither ["<"], ["/"] nor a word
    character is [">"], and [[^>]*] cannot cross a [">"], so the match,
    when there is one, ends at the first [">"] of [s]. *)
Definition tag_match (s : string) : option (string * string) :=
  if tag_opens s then through_gt s else None.

(** What the scan makes of the source, left to right: a match of the
    pattern, or a character at which the pattern does not match and
    which [finditer] steps over. *)
Inductive piece : Type :=
| Matched (tok : string)
| Unmatched (c : ascii).

Definition piece_text (p : piece) : string :=
  match p with
  | Matched tok => tok
  | Unmatched c => String c EmptyString
  end.

(** One attempt per position; every attempt consumes at least one
    character, so [String.length s] rounds are enough (see
    [TokenizerFacts.scan_fuel_enough]). *)
Fixpoint scan (fuel : nat) (s : string) : list piece :=
  match fuel with
  | O => []
  | S fuel' =>
      match s with
      | EmptyString => []
      | String c r =>
          if Ascii.eqb c Chars.lt_sign then
            match tag_match s with
            | Some (tok, rest) => Matched tok :: scan fuel' rest
            | None => Unmatched c :: scan fuel' r
            end
          else
            let (t, rest) := text_run s in Matched t :: scan fuel' rest
      end
  end.

Fixpoint matches (ps : list piece) : list string :=
  match ps with
  | [] => []
  | Matched tok :: ps' => tok :: matches ps'
  | Unmatched _ :: ps' => matches ps'
  end.

Definition pieces (source : string) : list piece :=
  scan (String.length source) source.

(** [[m.group() for m in re.finditer(..., source)]] *)
Definition finditer (source : string) : list string :=
  matches (pieces source).

(** The whole of [tok] is one match of the tag alternative. *)
Definition is_tag_token (tok : string) : Prop :=
  tag_match tok = Some (tok, EmptyString).

(** The whole of [tok] is one non-empty run without ["<"]. *)
Definition is_text_token (tok : string) : Prop :=
  tok <> EmptyString /\ text_run tok = (tok, EmptyString).

(** A run of the text alternative is maximal when it cannot be
    extended: it is followed by ["<"] or by the end of the source. *)
Definition at_lt_or_end (rest : string) : Prop :=
  rest = EmptyString \/ exists r, rest = String Chars.lt_sign r.

(** What a piece may be. *)
Definition piece_ok (p : piece) : Prop :=
  match p with
  | Matched tok => is_tag_token tok \/ is_text_token tok
  | Unmatched c => c = Chars.lt_sign
  end.

(** The pieces put end to end again. *)
Fixpoint flatten (ps : list piece) : string :=
  match ps with
  | [] => EmptyString
  | p :: ps' => piece_text p ++ flatten ps'
  end.

End Tokenizer.

(** ** The markup scanner inherited from [html.parser.HTMLParser] *)

Module HTMLParser.

(** The attributes of a start tag: [(key, value)] pairs in source
    order; [None] is Python's [None], the value of an attribute written
    without ["="]. *)
Definition attr : Type := string * option string.

(** What one token makes the scanner call on its subclass. *)
Inductive event : Type :=
| StartTag (tag : string) (attrs : list attr)     (* handle_starttag *)
| StartEndTag (tag : string) (attrs : list attr)  (* handle_startendtag *)
| EndTag (tag : string)                           (* handle_endtag *)
| NoTag.                                          (* handle_data and the like *)

(** A tag name runs up to white space, ["/"], [">"] or NUL. *)
Definition name_stop (c : ascii) : bool :=
  let n := nat_of_ascii c in
  (Nat.eqb n 0 || Nat.eqb n 9 || Nat.eqb n 10 || Nat.eqb n 12 ||
   Nat.eqb n 13 || Nat.eqb n 32 || Ascii.eqb c Chars.slash ||
   Ascii.eqb c Chars.gt_sign)%bool.

Fixpoint take_name (s : string) : string * string :=
  match s with
  | EmptyString => (EmptyString, EmptyString)
  | String c r =>
      if name_stop c then (EmptyString, s)
      else let (n, rest) := take_name r in (String c n, rest)
  end.

Definition snoc (s : string) (c : ascii) : string :=
  s ++ String c EmptyString.

(** Where the scan stands inside the attribute list of a start tag. *)
Inductive attr_state : Type :=
| Between (after_slash : bool)
| InName (name : string)
| AfterName (name : string)
| AfterEq (name : string)
| InQuoted (name : string) (quote : ascii) (value : string)
| InBare (name : string) (value : string).

Definition is_quote (c : ascii) : bool :=
  (Ascii.eqb c "034"%char || Ascii.eqb c "'"%char)%bool.

Definition is_eq_sign (c : ascii) : bool := Ascii.eqb c "="%char.

(** Attribute names are lower-cased as they are recorded. *)
Definition emit (acc : list attr) (n : string) (v : option string) : list attr :=
  (acc ++ [(lower n, v)])%list.

Definition attr_step (st : attr_state) (acc : list attr) (c : ascii)
  : attr_state * list attr :=
  match st with
  | Between _ =>
      if Chars.is_space c then (Between false, acc)
      else if Ascii.eqb c Chars.slash then (Between true, acc)
      else (InName (String c EmptyString), acc)
  | InName n =>
      if Chars.is_space c then (AfterName n, acc)
      else if Ascii.eqb c Chars.slash then (Between true, emit acc n None)
      else if is_eq_sign c then (AfterEq n, acc)
      else (InName (snoc n c), acc)
  | AfterName n =>
      if Chars.is_space c then (AfterName n, acc)
      else if is_eq_sign c then (AfterEq n, acc)
      else if Ascii.eqb c Chars.slash then (Between true, emit acc n None)
      else (InName (String c EmptyString), emit acc n None)
  | AfterEq n =>
      if Chars.is_space c then (AfterEq n, acc)
      else if is_eq_sign c then (AfterEq n, acc)
      else if is_quote c then (InQuoted n c EmptyString, acc)
      else (InBare n (String c EmptyString), acc)
  | InQuoted n q v =>
      if Ascii.eqb c q then (Between false, emit acc n (Some v))
      else (InQuoted n q (snoc v c), acc)
  | InBare n v =>
      if Chars.is_space c then (Between false, emit acc n (Some v))
      else (InBare n (snoc v c), acc)
  end.

(** The attributes read when the closing [">"] is reached, and whether
    the tag ends in ["/>"]. *)
Definition attr_finish (st : attr_state) (acc : list attr) : list attr * bool :=
  match st with
  | Between after_slash => (acc, after_slash)
  | InName n | AfterName n => (emit acc n None, false)
  | AfterEq n => (emit acc n (Some EmptyString), false)
  | InQuoted n _ v | InBare n v => (emit acc n (Some v), false)
  end.

Fixpoint scan_attrs (st : attr_state) (acc : list attr) (s : string)
  : list attr * bool :=
  match s with
  | EmptyString => attr_finish st acc
  | String c r =>
      if Ascii.eqb c Chars.gt_sign then attr_finish st acc
      else let (st', acc') := attr_step st acc c in scan_attrs st' acc' r
  end.

(** Modelled from the spec: the scanner of Python's standard library
    ([html.parser.HTMLParser.feed]), which [HTMLFragmentParser] inherits
    and which is not part of the repository.  Following section 3 of the
    specification, a tag token's classification and name are read off
    its text, and attributes are parsed for start tags only: a token
    ["</name ...>"] is an end tag, a token ["<name attr=... >"] a start
    tag (with no special treatment of void elements), where a name
    begins with a letter and is lower-cased; a start tag ending in
    ["/>"] is announced through [handle_startendtag]; every other token
    (text, or a ["<"] not followed by a letter) is data.  One token is
    consumed whole per call; character references inside attribute
    values are kept as written.  This simplifies the library, whose
    scanner keeps a buffer across calls (an unfinished start tag is held
    back until later text completes it), reads what follows a [script]
    or [style] start tag as data, unescapes attribute values and can
    raise on a malformed declaration.  What depends on the announcements
    of the scanner is stated below on the handlers, or for every scanner
    ([scanner]). *)
Definition classify (part : string) : event :=
  match part with
  | String c0 (String c1 r) =>
      if Ascii.eqb c0 Chars.lt_sign then
        if Ascii.eqb c1 Chars.slash then
          match r with
          | String c2 _ =>
              if Chars.is_alpha c2 then EndTag (lower (fst (take_name r)))
              else NoTag
          | EmptyString => NoTag
          end
        else if Chars.is_alpha c1 then
          let (name, rest) := take_name (String c1 r) in
          let (attrs, self_closing) := scan_attrs (Between false) [] rest in
          if self_closing then StartEndTag (lower name) attrs
          else StartTag (lower name) attrs
        else NoTag
      else NoTag
  | _ => NoTag
  end.

End HTMLParser.

(** ** The open-tag tracker: [class HTMLFragmentParser(HTMLParser)] *)

(** One open tag: [(tag, attrs)]. *)
Definition entry : Type := string * list HTMLParser.attr.

Record HTMLFragmentParser : Type := { open_tags : list entry }.

(** [HTMLFragmentParser()] *)
Definition new_parser : HTMLFragmentParser := {| open_tags := [] |}.

(** [self.open_tags.append((tag, attrs))] *)
Definition handle_starttag (self : HTMLFragmentParser) (tag : string)
    (attrs : list HTMLParser.attr) : HTMLFragmentParser :=
  {| open_tags := open_tags self ++ [(tag, attrs)] |}.

(** [list.pop(i)] for an index within the list *)
Definition pop (i : nat) (tags : list entry) : list entry :=
  firstn i tags ++ skipn (S i) tags.

(** [for i in range(len(self.open_tags) - 1, -1, -1)]: the indices below
    [i] are still to be visited, from [i - 1] down to [0]; the first one
    whose tag name is [tag] is popped, and the loop breaks. *)
Fixpoint endtag_loop (tag : string) (tags : list entry) (i : nat) : list entry :=
  match i with
  | O => tags
  | S j =>
      match nth_error tags j with
      | Some (name, _) =>
          if String.eqb name tag then pop j tags else endtag_loop tag tags j
      | None => tags
      end
  end.

Definition handle_endtag (self : HTMLFragmentParser) (tag : string)
    : HTMLFragmentParser :=
  {| open_tags := endtag_loop tag (open_tags self) (List.length (open_tags self)) |}.

(** [return self.open_tags[:]] *)
Definition get_open_tags (self : HTMLFragmentParser) : list entry :=
  open_tags self.

(** Inherited, not overridden: [handle_startendtag] calls
    [handle_starttag] and then [handle_endtag]. *)
Definition handle_startendtag (self : HTMLFragmentParser) (tag : string)
    (attrs : list HTMLParser.attr) : HTMLFragmentParser :=
  handle_endtag (handle_starttag self tag attrs) tag.

(** Inherited, not overridden: [handle_data], which the scanner calls
    for text, does nothing. *)
Definition handle_data (self : HTMLFragmentParser) (data : string)
    : HTMLFragmentParser := self.

(** Inherited, not overridden: [reset] reinitialises the scanner's own
    buffer and position.  [open_tags] is an attribute the subclass adds in
    its [__init__]; [reset] does not know it and leaves it as it is.  The
    scanner of this file keeps no buffer, so nothing else changes here;
    in the library the unprocessed text and the [script]/[style] mode are
    lost at a [reset]. *)
Definition reset (self : HTMLFragmentParser) : HTMLFragmentParser := self.

(** [parser.feed(part)] for one token: the scanner announces the token to
    the handlers; data goes to the inherited [handle_data], which does
    nothing.  The token is taken by itself, as [classify] reads it: the
    buffer, the [script]/[style] mode and the errors of the library's
    scanner are left out (see [classify] and [scanner]). *)
Definition feed (self : HTMLFragmentParser) (part : string) : HTMLFragmentParser :=
  match HTMLParser.classify part with
  | HTMLParser.StartTag tag attrs => handle_starttag self tag attrs
  | HTMLParser.StartEndTag tag attrs => handle_startendtag self tag attrs
  | HTMLParser.EndTag tag => handle_endtag self tag
  | HTMLParser.NoTag => self
  end.

(** ** Rendering the open tags *)

Definition dquote : string := String "034"%char EmptyString.

(** [str(value)] inside an f-string *)
Definition format_value (value : option string) : string :=
  match value with
  | Some v => v
  | None => "None"
  end.

(** [f'{key}="{value}"'] *)
Definition format_attr (a : HTMLParser.attr) : string :=
  let (key, value) := a in
  key ++ "=" ++ dquote ++ format_value value ++ dquote.

(** [f"<{tag} {attrs_str}>" if attrs_str else f"<{tag}>"] *)
Definition format_open (e : entry) : string :=
  let (tag, attrs) := e in
  let attrs_str := join " " (map format_attr attrs) in
  match attrs_str with
  | EmptyString => "<" ++ tag ++ ">"
  | _ => "<" ++ tag ++ " " ++ attrs_str ++ ">"
  end.

(** [f"</{tag}>"] *)
Definition format_close (e : entry) : string := "</" ++ fst e ++ ">".

Definition rebuild_open_tags (tags : list entry) : string :=
  join EmptyString (map format_open tags).

Definition rebuild_close_tags (tags : list entry) : string :=
  join EmptyString (map format_close (rev tags)).

(** ** The generator [split_message] *)

Definition MAX_LEN : Z := 4296.

(** The local variables that live across iterations of the [for] loop.
    [close_tags] is assigned in every iteration and read once more after
    the loop; before the first iteration it is unbound, and it is read
    only when [current_fragment] is not empty, that is after at least one
    iteration, so its initial value here is never looked at. *)
Record locals : Type := {
  current_fragment : list string;
  current_length : Z;
  parser : HTMLFragmentParser;
  close_tags : string
}.

Definition initial : locals :=
  {| current_fragment := [];
     current_length := 0;
     parser := new_parser;
     close_tags := EmptyString |}.

(** One iteration of the loop on the token [part]: what it yields and
    the locals it leaves. *)
Definition iteration (max_len : Z) (st : locals) (part : string)
    : list string * locals :=
  let part_len := len part in
  let close_tags' := rebuild_close_tags (get_open_tags (parser st)) in
  let added_tags_length := len close_tags' in
  if current_length st + part_len + added_tags_length >? max_len then
    let fragment := join EmptyString (current_fragment st) ++ close_tags' in
    let parser' := reset (parser st) in
    let open_tags_rebuilt := rebuild_open_tags (get_open_tags parser') in
    ([fragment],
     {| current_fragment := [open_tags_rebuilt; part];
        current_length := len open_tags_rebuilt + part_len;
        parser := feed parser' part;
        close_tags := close_tags' |})
  else
    ([],
     {| current_fragment := current_fragment st ++ [part];
        current_length := current_length st + part_len;
        parser := feed (parser st) part;
        close_tags := close_tags' |}).

(** The [for] loop over the tokens. *)
Fixpoint for_loop (max_len : Z) (st : locals) (parts : list string)
    : list string * locals :=
  match parts with
  | [] => ([], st)
  | part :: rest =>
      let (now, st') := iteration max_len st part in
      let (later, st'') := for_loop max_len st' rest in
      ((now ++ later)%list, st'')
  end.

(** [if current_fragment: yield ...], the statements after the loop *)
Definition after_loop (st : locals) : list string :=
  match current_fragment st with
  | [] => []
  | _ :: _ => [join EmptyString (current_fragment st) ++ close_tags st]
  end.

Definition split_message (source : string) (max_len : Z) : list string :=
  let (yielded, st) := for_loop max_len initial (Tokenizer.finditer source) in
  (yielded ++ after_loop st)%list.

(** The open tags a tracker is left with after a fragment has been
    tokenized and fed to it, token by token. *)
Definition open_after (fragment : string) : list entry :=
  get_open_tags (fold_left feed (Tokenizer.finditer fragment) new_parser).

Definition balanced (fragment : string) : Prop := open_after fragment = [].

(** ** Vocabulary of the statements *)

(** Does the entry bear the tag name [tag]?  The test of [handle_endtag]:
    [self.open_tags[i][0] == tag]. *)
Definition named (tag : string) (e : entry) : bool := String.eqb (fst e) tag.

(** The summed length of the renderings [f] of the tags. *)
Fixpoint weight (f : entry -> string) (tags : list entry) : Z :=
  match tags with
  | [] => 0
  | e :: tags' => len (f e) + weight f tags'
  end.

(** Everything the generator yields from the locals [st] on, when the
    tokens [parts] are still to come. *)
Definition generated (max_len : Z) (st : locals) (parts : list string) : list string :=
  (fst (for_loop max_len st parts) ++ after_loop (snd (for_loop max_len st parts)))%list.

(** The make-up of a fragment: the reopening prefix, the tokens of the
    source it carries, and the closing suffix. *)
Record layout : Type := {
  reopened : string;
  core : list string;
  closing : string
}.

Definition render (f : layout) : string :=
  reopened f ++ join EmptyString (core f) ++ closing f.

(** Prefix and suffix are renderings of open tags, not source text. *)
Definition synthetic (f : layout) : Prop :=
  (exists tags, reopened f = rebuild_open_tags tags) /\
  (exists tags, closing f = rebuild_close_tags tags).

(** The locals after an iteration that cut the fragment before [part]. *)
Definition restarted (st : locals) (part : string) : locals :=
  {| current_fragment := [rebuild_open_tags (get_open_tags (parser st)); part];
     current_length := len (rebuild_open_tags (get_open_tags (parser st))) + len part;
     parser := feed (parser st) part;
     close_tags := rebuild_close_tags (get_open_tags (parser st)) |}.

(** The locals after an iteration that appended [part]. *)
Definition extended (st : locals) (part : string) : locals :=
  {| current_fragment := current_fragment st ++ [part];
     current_length := current_length st + len part;
     parser := feed (parser st) part;
     close_tags := rebuild_close_tags (get_open_tags (parser st)) |}.

(** The quantity the loop compares with [max_len]. *)
Definition projected (st : locals) (part : string) : Z :=
  current_length st + len part + len (rebuild_close_tags (get_open_tags (parser st))).

(** The accumulator is a reopening prefix [pre] followed by the source
    tokens [toks], and the last closing suffix is a rendering of tags. *)
Definition accumulates (st : locals) (pre : string) (toks : list string) : Prop :=
  join EmptyString (current_fragment st) = pre ++ join EmptyString toks /\
  (current_fragment st = [] -> toks = []) /\
  (exists tags, pre = rebuild_open_tags tags) /\
  (exists tags, close_tags st = rebuild_close_tags tags).

(** [c * n] *)
Fixpoint repeat_char (c : ascii) (n : nat) : string :=
  match n with
  | O => EmptyString
  | S n' => String c (repeat_char c n')
  end.

(** ["<p>" + "A"*50 + "</p>"] *)
Definition scenario_2 : string := "<p>" ++ repeat_char "A" 50 ++ "</p>".

(** Is the token a text run rather than a tag? *)
Definition is_text (tok : string) : bool :=
  match tok with
  | String c _ => negb (Ascii.eqb c Chars.lt_sign)
  | EmptyString => false
  end.

(** The text of a fragment: its text tokens, put end to end. *)
Definition text_of (fragment : string) : string :=
  join EmptyString (filter is_text (Tokenizer.finditer fragment)).

(** [current_length] is the length of the accumulated text. *)
Definition counted (st : locals) : Prop :=
  current_length st = len (join EmptyString (current_fragment st)).

(** The tag names on the stack, oldest first. *)
Definition names (tags : list entry) : list string := map fst tags.

(** What [handle_endtag] does to the names on the stack: the last
    occurrence of [tag] goes. *)
Fixpoint drop_last (tag : string) (ns : list string) : list string :=
  match ns with
  | [] => []
  | n :: ns' =>
      if existsb (fun m => String.eqb m tag) ns' then n :: drop_last tag ns'
      else if String.eqb n tag then ns'
      else n :: ns'
  end.

(** ** The generator over any scanner *)

(** The parser object as [split_message] uses it, whatever the inherited
    scanner does inside: a state, the open tags it holds
    ([get_open_tags]), [feed], which may raise ([None]), and [reset].
    [reset] is inherited and reinitialises the scanner only; [open_tags]
    is set in [__init__] of the subclass and nowhere else but in the two
    handlers, so [reset] leaves the open tags as they are. *)
Record scanner : Type := {
  tracker : Type;
  fresh : tracker;
  tags_of : tracker -> list entry;
  feed_of : tracker -> string -> option tracker;
  reset_of : tracker -> tracker;
  fresh_has_no_tags : tags_of fresh = [];
  reset_keeps_tags : forall p, tags_of (reset_of p) = tags_of p
}.

Module Loop.

(** The local variables of [split_message], as in [locals]. *)
Record locals (sc : scanner) : Type := {
  current_fragment : list string;
  current_length : Z;
  parser : tracker sc;
  close_tags : string
}.

Arguments current_fragment {sc} _.
Arguments current_length {sc} _.
Arguments parser {sc} _.
Arguments close_tags {sc} _.

Definition initial (sc : scanner) : locals sc :=
  {| current_fragment := [];
     current_length := 0;
     parser := fresh sc;
     close_tags := EmptyString |}.

(** One iteration of the loop: what it yields and, unless
    [parser.feed(part)] raises, the locals it leaves.  The [yield] of
    line 90 comes before the [feed] of line 101. *)
Definition iteration (sc : scanner) (max_len : Z) (st : locals sc) (part : string)
    : list string * option (locals sc) :=
  let part_len := len part in
  let close_tags' := rebuild_close_tags (tags_of sc (parser st)) in
  let added_tags_length := len close_tags' in
  if current_length st + part_len + added_tags_length >? max_len then
    let fragment := join EmptyString (current_fragment st) ++ close_tags' in
    let parser' := reset_of sc (parser st) in
    let open_tags_rebuilt := rebuild_open_tags (tags_of sc parser') in
    ([fragment],
     match feed_of sc parser' part with
     | Some fed =>
         Some {| current_fragment := [open_tags_rebuilt; part];
                 current_length := len open_tags_rebuilt + part_len;
                 parser := fed;
                 close_tags := close_tags' |}
     | None => None
     end)
  else
    ([],
     match feed_of sc (parser st) part with
     | Some fed =>
         Some {| current_fragment := current_fragment st ++ [part];
                 current_length := current_length st + part_len;
                 parser := fed;
                 close_tags := close_tags' |}
     | None => None
     end).

(** The [for] loop: the fragments yielded, and the locals at its end
    unless a [feed] raised. *)
Fixpoint for_loop (sc : scanner) (max_len : Z) (st : locals sc) (parts : list string)
    : list string * option (locals sc) :=
  match parts with
  | [] => ([], Some st)
  | part :: rest =>
      match iteration sc max_len st part with
      | (now, Some st') =>
          let (later, final) := for_loop sc max_len st' rest in
          ((now ++ later)%list, final)
      | (now, None) => (now, None)
      end
  end.

Definition after_loop (sc : scanner) (st : locals sc) : list string :=
  match current_fragment st with
  | [] => []
  | _ :: _ => [join EmptyString (current_fragment st) ++ close_tags st]
  end.

(** The fragments the generator yields, and whether it ran to its end
    ([false]: a [feed] raised, after the fragments yielded so far). *)
Definition split_message (sc : scanner) (source : string) (max_len : Z)
    : list string * bool :=
  match for_loop sc max_len (initial sc) (Tokenizer.finditer source) with
  | (yielded, Some st) => ((yielded ++ after_loop sc st)%list, true)
  | (yielded, None) => (yielded, false)
  end.

End Loop.

(** The scanner of this file: it never raises. *)
Definition model : scanner :=
  {| tracker := HTMLFragmentParser;
     fresh := new_parser;
     tags_of := get_open_tags;
     feed_of := fun p part => Some (feed p part);
     reset_of := reset;
     fresh_has_no_tags := eq_refl;
     reset_keeps_tags := fun p => eq_refl |}.

(** * Properties *)

(** ** The definitions at work *)

Example finditer_simple :
  Tokenizer.finditer "<p>Hello world</p>" = ["<p>"; "Hello world"; "</p>"].
Proof. reflexivity. Qed.

Example finditer_stray :
  Tokenizer.finditer "a < b<<i x='1'>c</ d>" = ["a "; " b"; "<i x='1'>"; "c"; "/ d>"].
Proof. reflexivity. Qed.

Example classify_start :
  HTMLParser.classify "<A href='x' target=_blank disabled>"
  = HTMLParser.StartTag "a"
      [("href", Some "x"); ("target", Some "_blank"); ("disabled", None)].
Proof. reflexivity. Qed.

Example classify_end : HTMLParser.classify "</Span >" = HTMLParser.EndTag "span".
Proof. reflexivity. Qed.

Example classify_self_closing :
  HTMLParser.classify "<br/>" = HTMLParser.StartEndTag "br" [].
Proof. reflexivity. Qed.

Example classify_text : HTMLParser.classify "a > b" = HTMLParser.NoTag.
Proof. reflexivity. Qed.

Example classify_digit : HTMLParser.classify "<1>" = HTMLParser.NoTag.
Proof. reflexivity. Qed.

(** ** Facts about strings *)

Section StringFacts.

Lemma append_empty_r (s : string) : s ++ EmptyString = s.
Proof. induction s as [|c s IH]; simpl; [reflexivity | now rewrite IH]. Qed.

Lemma append_assoc (a b c : string) : (a ++ b) ++ c = a ++ (b ++ c).
Proof. induction a as [|x a IH]; simpl; [reflexivity | now rewrite IH]. Qed.

Lemma length_append (a b : string) :
  String.length (a ++ b) = (String.length a + String.length b)%nat.
Proof. induction a as [|x a IH]; simpl; [reflexivity | now rewrite IH]. Qed.

Lemma len_append (a b : string) : len (a ++ b) = len a + len b.
Proof. unfold len. rewrite length_append. lia. Qed.

Lemma len_nonneg (s : string) : 0 <= len s.
Proof. unfold len. lia. Qed.

Lemma len_positive (s : string) : s <> EmptyString -> 1 <= len s.
Proof. destruct s; [congruence | unfold len; simpl; lia]. Qed.

Lemma join_cons (x : string) (xs : list string) :
  join EmptyString (x :: xs) = x ++ join EmptyString xs.
Proof.
  unfold join. destruct xs as [|y ys]; simpl.
  - now rewrite append_empty_r.
  - reflexivity.
Qed.

Lemma join_app (xs ys : list string) :
  join EmptyString (xs ++ ys) = join EmptyString xs ++ join EmptyString ys.
Proof.
  induction xs as [|x xs IH].
  - reflexivity.
  - rewrite <- app_comm_cons, !join_cons, IH, append_assoc. reflexivity.
Qed.

Lemma join_single (x : string) : join EmptyString [x] = x.
Proof. reflexivity. Qed.

End StringFacts.

(** ** Facts about the tokenizer *)

Module TokenizerFacts.
Import Tokenizer.

Lemma text_run_split s t rest :
  text_run s = (t, rest) ->
  s = t ++ rest /\ text_run t = (t, EmptyString) /\ at_lt_or_end rest.
Proof.
  revert t rest. induction s as [|c s IH]; simpl; intros t rest H.
  - inversion H; subst. repeat split; auto. now left.
  - destruct (Ascii.eqb c Chars.lt_sign) eqn:E.
    + inversion H; subst. repeat split; auto.
      right. apply Ascii.eqb_eq in E. subst. eauto.
    + destruct (text_run s) as [t' rest'] eqn:R. inversion H; subst.
      destruct (IH _ _ eq_refl) as (Hs & Ht & Hr).
      repeat split; auto.
      * simpl. now rewrite <- Hs.
      * simpl. now rewrite E, Ht.
Qed.

Lemma through_gt_split s t rest :
  through_gt s = Some (t, rest) ->
  s = t ++ rest /\ through_gt t = Some (t, EmptyString) /\ t <> EmptyString.
Proof.
  revert t rest. induction s as [|c s IH]; simpl; intros t rest H.
  - discriminate.
  - destruct (Ascii.eqb c Chars.gt_sign) eqn:E.
    + inversion H; subst. simpl. rewrite E. repeat split; auto. discriminate.
    + destruct (through_gt s) as [[t' rest']|] eqn:R; [|discriminate].
      inversion H; subst.
      destruct (IH _ _ eq_refl) as (Hs & Ht & _).
      repeat split.
      * simpl. now rewrite <- Hs.
      * simpl. now rewrite E, Ht.
      * discriminate.
Qed.

(** [tag_opens] looks at no more than the first three characters, all
    of which lie inside the match. *)
Lemma tag_opens_prefix s t rest :
  tag_opens s = true -> through_gt s = Some (t, rest) -> tag_opens t = true.
Proof.
  intros Ho Hg.
  destruct s as [|c0 [|c1 s]]; simpl in Ho; try discriminate.
  apply andb_prop in Ho as [H0 H1].
  simpl in Hg.
  destruct (Ascii.eqb c0 Chars.gt_sign) eqn:E0.
  { apply Ascii.eqb_eq in H0, E0. subst. discriminate. }
  destruct (Ascii.eqb c1 Chars.gt_sign) eqn:E1.
  { apply Ascii.eqb_eq in E1. subst c1. simpl in H1. discriminate. }
  destruct (Ascii.eqb c1 Chars.slash) eqn:Es.
  - destruct s as [|c2 s]; [discriminate|].
    simpl in Hg.
    destruct (Ascii.eqb c2 Chars.gt_sign) eqn:E2.
    { apply Ascii.eqb_eq in E2. subst c2. discriminate. }
    destruct (through_gt s) as [[t' rest']|]; [|discriminate].
    inversion Hg; subst. simpl. now rewrite H0, Es, H1.
  - destruct (through_gt s) as [[t' rest']|]; [|discriminate].
    inversion Hg; subst. simpl. now rewrite H0, Es, H1.
Qed.

Lemma tag_match_split s t rest :
  tag_match s = Some (t, rest) ->
  s = t ++ rest /\ is_tag_token t /\ t <> EmptyString.
Proof.
  unfold tag_match, is_tag_token. intros H.
  destruct (tag_opens s) eqn:Ho; [|discriminate].
  destruct (through_gt_split _ _ _ H) as (Hs & Ht & Hne).
  repeat split; auto.
  unfold tag_match. now rewrite (tag_opens_prefix _ _ _ Ho H).
Qed.

Lemma scan_sound fuel s :
  (String.length s <= fuel)%nat ->
  flatten (scan fuel s) = s /\ Forall piece_ok (scan fuel s).
Proof.
  revert s. induction fuel as [|fuel IH]; intros s Hlen.
  - destruct s; simpl in *; [auto | lia].
  - destruct s as [|c r]; simpl; [auto|].
    destruct (Ascii.eqb c Chars.lt_sign) eqn:E.
    + destruct (tag_match (String c r)) as [[tok rest]|] eqn:M.
      * destruct (tag_match_split _ _ _ M) as (Hs & Ht & Hne).
        assert (Hr : (String.length rest <= fuel)%nat).
        { apply (f_equal String.length) in Hs. rewrite length_append in Hs.
          destruct tok; [congruence|]. simpl in *. lia. }
        destruct (IH rest Hr) as [Hf Hok]. split.
        -- simpl. now rewrite Hf, <- Hs.
        -- constructor; [now left | exact Hok].
      * assert (Hr : (String.length r <= fuel)%nat) by (simpl in Hlen; lia).
        destruct (IH r Hr) as [Hf Hok]. split.
        -- simpl. now rewrite Hf.
        -- constructor; [now apply Ascii.eqb_eq in E | exact Hok].
    + destruct (text_run r) as [t rest] eqn:R.
      destruct (text_run_split _ _ _ R) as (Hs & Ht & _).
      assert (Hr : (String.length rest <= fuel)%nat).
      { apply (f_equal String.length) in Hs. rewrite length_append in Hs.
        simpl in Hlen. lia. }
      destruct (IH rest Hr) as [Hf Hok]. split.
      * simpl. now rewrite Hf, <- Hs.
      * constructor; [|exact Hok]. right. split; [discriminate|].
        simpl. now rewrite E, Ht.
Qed.

(** More rounds than characters change nothing. *)
Lemma scan_fuel_irrelevant fuel1 fuel2 s :
  (String.length s <= fuel1)%nat -> (String.length s <= fuel2)%nat ->
  scan fuel1 s = scan fuel2 s.
Proof.
  revert fuel2 s. induction fuel1 as [|fuel1 IH]; intros fuel2 s H1 H2.
  - destruct s; simpl in *; [now destruct fuel2 | lia].
  - destruct s as [|c r]; [now destruct fuel2|].
    destruct fuel2 as [|fuel2]; [simpl in H2; lia|].
    simpl in H1, H2. cbn [scan].
    destruct (Ascii.eqb c Chars.lt_sign) eqn:E.
    + destruct (tag_match (String c r)) as [[tok rest]|] eqn:M.
      * destruct (tag_match_split _ _ _ M) as (Hs & _ & Hne).
        assert (Hr : (String.length rest <= String.length r)%nat).
        { apply (f_equal String.length) in Hs. rewrite length_append in Hs.
          destruct tok; [congruence|]. simpl in *. lia. }
        f_equal. apply IH; lia.
      * f_equal. apply IH; lia.
    + destruct (text_run (String c r)) as [t rest] eqn:R.
      destruct (text_run_split _ _ _ R) as (Hs & _ & _).
      assert (Hne : t <> EmptyString).
      { simpl in R. rewrite E in R. destruct (text_run r). inversion R. discriminate. }
      assert (Hr : (String.length rest <= String.length r)%nat).
      { apply (f_equal String.length) in Hs. rewrite length_append in Hs.
        destruct t; [congruence|]. simpl in *. lia. }
      f_equal. apply IH; lia.
Qed.

Lemma scan_fuel_enough fuel s :
  (String.length s <= fuel)%nat -> scan fuel s = pieces s.
Proof. intros H. apply scan_fuel_irrelevant; [exact H | lia]. Qed.

Lemma pieces_sound source :
  flatten (pieces source) = source /\ Forall piece_ok (pieces source).
Proof. apply scan_sound. unfold pieces. lia. Qed.

Lemma is_tag_token_nonempty tok : is_tag_token tok -> tok <> EmptyString.
Proof. intros H. now destruct (tag_match_split _ _ _ H) as (_ & _ & Hne). Qed.

Lemma matches_nonempty ps :
  Forall piece_ok ps -> Forall (fun tok => tok <> EmptyString) (matches ps).
Proof.
  induction 1 as [|p ps Hp _ IH]; simpl; [constructor|].
  destruct p as [tok|c]; [|exact IH].
  constructor; [|exact IH].
  destruct Hp as [Ht|[Hne _]]; [now apply is_tag_token_nonempty | exact Hne].
Qed.

(** No match of the pattern is empty. *)
Lemma finditer_nonempty source :
  Forall (fun tok => tok <> EmptyString) (finditer source).
Proof. apply matches_nonempty, pieces_sound. Qed.

End TokenizerFacts.

(** ** Facts about the tracker and the renderers *)

Section TrackerFacts.

Lemma nth_error_middle (l1 l2 : list entry) (e : entry) :
  nth_error (l1 ++ e :: l2) (List.length l1) = Some e.
Proof. rewrite nth_error_app2 by lia. now rewrite Nat.sub_diag. Qed.

Lemma pop_middle (l1 l2 : list entry) (e : entry) :
  pop (List.length l1) (l1 ++ e :: l2) = (l1 ++ l2)%list.
Proof.
  unfold pop. f_equal.
  - rewrite firstn_app, Nat.sub_diag, firstn_all. simpl. apply app_nil_r.
  - replace (S (List.length l1)) with (List.length (l1 ++ [e]))
      by (rewrite length_app; simpl; lia).
    replace (l1 ++ e :: l2)%list with ((l1 ++ [e]) ++ l2)%list
      by (now rewrite <- app_assoc).
    rewrite skipn_app, Nat.sub_diag, skipn_all. reflexivity.
Qed.

(** The downward loop walks over the indices it does not stop at. *)
Lemma endtag_loop_skip (tag : string) (tags : list entry) (i k : nat) :
  (i + k <= List.length tags)%nat ->
  (forall j e, (i <= j < i + k)%nat -> nth_error tags j = Some e -> fst e <> tag) ->
  endtag_loop tag tags (i + k) = endtag_loop tag tags i.
Proof.
  induction k as [|k IH]; intros Hk H.
  - now rewrite Nat.add_0_r.
  - rewrite Nat.add_succ_r. simpl.
    destruct (nth_error tags (i + k)) as [[name attrs]|] eqn:N.
    + destruct (String.eqb name tag) eqn:E.
      * apply String.eqb_eq in E. exfalso.
        apply (H (i + k)%nat (name, attrs)); [lia | exact N | exact E].
      * apply IH; [lia|]. intros j e Hj. apply H. lia.
    + apply nth_error_None in N. lia.
Qed.

Lemma endtag_loop_hit (tag : string) (l1 l2 : list entry) (attrs : list HTMLParser.attr) :
  (forall e, In e l2 -> fst e <> tag) ->
  endtag_loop tag (l1 ++ (tag, attrs) :: l2)
    (List.length (l1 ++ (tag, attrs) :: l2)) = (l1 ++ l2)%list.
Proof.
  intros Habove.
  replace (List.length (l1 ++ (tag, attrs) :: l2))
    with (S (List.length l1) + List.length l2)%nat
    by (rewrite length_app; simpl; lia).
  rewrite endtag_loop_skip.
  - simpl. rewrite nth_error_middle, String.eqb_refl. apply pop_middle.
  - rewrite length_app. simpl. lia.
  - intros j e Hj Hn. apply Habove.
    rewrite nth_error_app2 in Hn by lia.
    destruct (j - List.length l1)%nat as [|m] eqn:D; [lia|].
    simpl in Hn. eapply nth_error_In; eauto.
Qed.

Lemma endtag_loop_miss (tag : string) (tags : list entry) :
  (forall e, In e tags -> fst e <> tag) ->
  endtag_loop tag tags (List.length tags) = tags.
Proof.
  intros H.
  change (List.length tags) with (0 + List.length tags)%nat.
  rewrite endtag_loop_skip; [reflexivity | lia |].
  intros j e _ Hn. apply H. eapply nth_error_In; eauto.
Qed.




Lemma weight_app f (l1 l2 : list entry) :
  weight f (l1 ++ l2) = weight f l1 + weight f l2.
Proof. induction l1 as [|e l1 IH]; simpl; lia. Qed.

Lemma weight_rev f (l : list entry) : weight f (rev l) = weight f l.
Proof.
  induction l as [|e l IH]; simpl; [reflexivity|].
  rewrite weight_app. simpl. lia.
Qed.


Lemma len_join_map f (l : list entry) :
  len (join EmptyString (map f l)) = weight f l.
Proof.
  induction l as [|e l IH]; [reflexivity|].
  cbn [map weight]. rewrite join_cons, len_append, IH. reflexivity.
Qed.

Lemma len_rebuild_close_tags tags :
  len (rebuild_close_tags tags) = weight format_close tags.
Proof. unfold rebuild_close_tags. now rewrite len_join_map, weight_rev. Qed.

Lemma len_rebuild_open_tags tags :
  len (rebuild_open_tags tags) = weight format_open tags.
Proof. unfold rebuild_open_tags. apply len_join_map. Qed.

Lemma len_format_close e : len (format_close e) = len (fst e) + 3.
Proof.
  unfold format_close. rewrite !len_append.
  change (len "</") with 2. change (len ">") with 1. lia.
Qed.

Lemma len_format_open e : len (fst e) + 2 <= len (format_open e).
Proof.
  destruct e as [tag attrs]. unfold format_open. cbn [fst].
  destruct (join " " (map format_attr attrs)) as [|c r].
  - rewrite !len_append.
    change (len "<") with 1. change (len ">") with 1. lia.
  - rewrite !len_append.
    change (len "<") with 1. change (len ">") with 1.
    pose proof (len_nonneg (String c r)). pose proof (len_nonneg " "). lia.
Qed.


End TrackerFacts.

(** ** Facts about the loop of [split_message] *)

Section LoopFacts.

Variable max_len : Z.

Lemma split_message_generated source :
  split_message source max_len = generated max_len initial (Tokenizer.finditer source).
Proof.
  unfold split_message, generated.
  now destruct (for_loop max_len initial (Tokenizer.finditer source)).
Qed.

Lemma for_loop_cons st part rest :
  for_loop max_len st (part :: rest) =
  ((fst (iteration max_len st part)
     ++ fst (for_loop max_len (snd (iteration max_len st part)) rest))%list,
   snd (for_loop max_len (snd (iteration max_len st part)) rest)).
Proof.
  simpl. destruct (iteration max_len st part) as [now st'].
  simpl. now destruct (for_loop max_len st' rest).
Qed.

Lemma generated_nil st : generated max_len st [] = after_loop st.
Proof. reflexivity. Qed.

Lemma generated_cons st part rest :
  generated max_len st (part :: rest) =
  (fst (iteration max_len st part)
    ++ generated max_len (snd (iteration max_len st part)) rest)%list.
Proof.
  unfold generated. rewrite for_loop_cons. cbn [fst snd].
  now rewrite app_assoc.
Qed.


(** The two branches of the [if]. *)
Lemma iteration_overflow st part :
  projected st part > max_len ->
  iteration max_len st part =
  ([join EmptyString (current_fragment st)
      ++ rebuild_close_tags (get_open_tags (parser st))],
   restarted st part).
Proof.
  intros H. unfold iteration, reset, projected in *.
  destruct (Z.gtb_spec
    (current_length st + len part + len (rebuild_close_tags (get_open_tags (parser st))))
    max_len); [reflexivity | lia].
Qed.

Lemma iteration_fits st part :
  projected st part <= max_len ->
  iteration max_len st part = ([], extended st part).
Proof.
  intros H. unfold iteration, projected in *.
  destruct (Z.gtb_spec
    (current_length st + len part + len (rebuild_close_tags (get_open_tags (parser st))))
    max_len); [lia | reflexivity].
Qed.

Lemma iteration_cases st part :
  projected st part > max_len \/ projected st part <= max_len.
Proof. lia. Qed.

Lemma accumulates_initial : accumulates initial EmptyString [].
Proof.
  repeat split; auto; now exists [].
Qed.

Lemma generated_layout parts : forall st pre toks,
  accumulates st pre toks ->
  exists fs,
    generated max_len st parts = map render fs /\
    concat (map core fs) = (toks ++ parts)%list /\
    Forall synthetic fs.
Proof.
  induction parts as [|part rest IH]; intros st pre toks (Hj & He & Hp & Hc).
  - rewrite generated_nil. unfold after_loop.
    destruct (current_fragment st) as [|x xs] eqn:Ecf.
    + exists []. rewrite (He eq_refl). split; [|split]; auto.
    + exists [{| reopened := pre; core := toks; closing := close_tags st |}].
      split; [|split].
      * unfold render. cbn [map reopened core closing].
        now rewrite Hj, append_assoc.
      * cbn [map concat core]. now rewrite app_nil_r.
      * constructor; [split; assumption | constructor].
  - rewrite generated_cons.
    destruct (iteration_cases st part) as [Hov|Hfit].
    + rewrite (iteration_overflow _ _ Hov). cbn [fst snd].
      destruct (IH (restarted st part)
                  (rebuild_open_tags (get_open_tags (parser st))) [part])
        as (fs & Hg & Hcat & Hsyn).
      { split; [|split; [|split]]; cbn [restarted current_fragment close_tags].
        - now rewrite join_cons.
        - discriminate.
        - eauto.
        - eauto. }
      exists ({| reopened := pre; core := toks;
                 closing := rebuild_close_tags (get_open_tags (parser st)) |} :: fs).
      split; [|split].
      * cbn [map app]. rewrite Hg. f_equal.
        unfold render. cbn [reopened core closing].
        now rewrite Hj, append_assoc.
      * cbn [map concat core]. rewrite Hcat. reflexivity.
      * constructor; [|exact Hsyn]. split; cbn [reopened closing]; eauto.
    + rewrite (iteration_fits _ _ Hfit). cbn [fst snd app].
      destruct (IH (extended st part) pre (toks ++ [part])%list)
        as (fs & Hg & Hcat & Hsyn).
      { split; [|split; [|split]]; cbn [extended current_fragment close_tags].
        - now rewrite !join_app, Hj, append_assoc.
        - intros E. now apply app_eq_nil in E as [_ E].
        - exact Hp.
        - eauto. }
      exists fs. split; [|split]; auto.
      rewrite Hcat, <- app_assoc. reflexivity.
Qed.

End LoopFacts.

(** Every fragment is a prefix of reopened tags, a run of consecutive
    tokens of the source and a suffix of closing tags, and the runs, in
    order, are the tokens of the source. *)
Lemma split_message_layout (source : string) (max_len : Z) :
  exists fs,
    split_message source max_len = map render fs /\
    concat (map core fs) = Tokenizer.finditer source /\
    Forall synthetic fs.
Proof.
  rewrite split_message_generated.
  destruct (generated_layout max_len (Tokenizer.finditer source) initial EmptyString [])
    as (fs & H1 & H2 & H3); [apply accumulates_initial|].
  exists fs. auto.
Qed.

Section LoopBounds.

Variable max_len : Z.




End LoopBounds.

(** ** The tracker (C7) *)

Lemma not_named_anywhere tag (l : list entry) :
  existsb (named tag) l = false -> forall e, In e l -> fst e <> tag.
Proof.
  intros H e He Heq.
  assert (X : existsb (named tag) l = true).
  { apply existsb_exists. exists e. split; [exact He|].
    unfold named. now apply String.eqb_eq. }
  congruence.
Qed.

(** C7.  What the tracker does with what is announced to it.  On a start
    tag, [handle_starttag] pushes exactly one entry on top of the stack.
    On an end tag, [handle_endtag] removes the entry nearest to the top
    whose name matches, and leaves the entries above and below it in
    place; when no entry matches, the tracker is left as it was (no
    error).  On text, the inherited [handle_data] leaves the tracker as
    it was. *)
Theorem handlers_track_open_tags (self : HTMLFragmentParser) :
  (forall tag attrs,
      get_open_tags (handle_starttag self tag attrs)
      = (get_open_tags self ++ [(tag, attrs)])%list) /\
  (forall tag below attrs above,
      get_open_tags self = (below ++ (tag, attrs) :: above)%list ->
      existsb (named tag) above = false ->
      get_open_tags (handle_endtag self tag) = (below ++ above)%list) /\
  (forall tag,
      existsb (named tag) (get_open_tags self) = false ->
      handle_endtag self tag = self) /\
  (forall data, handle_data self data = self).
Proof.
  split; [|split; [|split]].
  - reflexivity.
  - intros tag below attrs above Hs Habove.
    unfold get_open_tags, handle_endtag in *. cbn [open_tags]. rewrite Hs.
    apply endtag_loop_hit, not_named_anywhere, Habove.
  - intros tag Hnone.
    destruct self as [tags]. unfold handle_endtag, get_open_tags in *.
    cbn [open_tags] in *. f_equal.
    apply endtag_loop_miss, not_named_anywhere, Hnone.
  - reflexivity.
Qed.

(** An improperly nested end tag: the end tag of ["b"] removes the
    second entry of ["b"] and leaves ["i"], pushed after it, and the
    older ["b"] on the stack. *)
Lemma handlers_track_open_tags_witness :
  get_open_tags
    (handle_endtag {| open_tags := [("a", []); ("b", []); ("b", []); ("i", [])] |} "b")
  = [("a", []); ("b", []); ("i", [])].
Proof.
  apply (proj1 (proj2 (handlers_track_open_tags
           {| open_tags := [("a", []); ("b", []); ("b", []); ("i", [])] |}))
         "b" [("a", []); ("b", [])] [] [("i", [])]);
    reflexivity.
Defined.

(** ** The overflow test (C5) *)

(** C5.  The test of the loop is strict.  In one iteration the token is
    appended to the current fragment, and nothing is yielded, if and only
    if [current_length + part_len + added_tags_length <= max_len], where
    the added length is that of the closing suffix of the tags open
    before the token is fed.  The accumulator can therefore reach exactly
    [max_len] characters: the source ["ab<i>"] with [max_len = 5] is
    accumulated whole. *)
Theorem overflow_test_is_strict :
  (forall max_len st part,
      (fst (iteration max_len st part) = [] /\
       current_fragment (snd (iteration max_len st part))
         = (current_fragment st ++ [part])%list /\
       current_length (snd (iteration max_len st part))
         = current_length st + len part)
      <->
      current_length st + len part
        + len (rebuild_close_tags (get_open_tags (parser st))) <= max_len) /\
  (split_message "ab<i>" 5 = ["ab<i>"] /\
   current_length (snd (for_loop 5 initial (Tokenizer.finditer "ab<i>"))) = 5).
Proof.
  split.
  - intros max_len st part. fold (projected st part). split.
    + intros (Hy & _).
      destruct (iteration_cases max_len st part) as [Hov|Hfit]; [|exact Hfit].
      rewrite (iteration_overflow _ _ _ Hov) in Hy. discriminate.
    + intros Hfit. rewrite (iteration_fits _ _ _ Hfit). auto.
  - split; reflexivity.
Qed.

(** The token ["<i>"] arrives when five characters would be reached
    exactly, and is appended. *)
Lemma overflow_test_is_strict_witness :
  fst (iteration 5 (snd (for_loop 5 initial ["ab"])) "<i>") = [] /\
  current_fragment (snd (iteration 5 (snd (for_loop 5 initial ["ab"])) "<i>"))
    = ["ab"; "<i>"] /\
  current_length (snd (iteration 5 (snd (for_loop 5 initial ["ab"])) "<i>")) = 5.
Proof.
  apply (proj2 (proj1 overflow_test_is_strict 5 (snd (for_loop 5 initial ["ab"])) "<i>")).
  vm_compute. discriminate.
Defined.

(** ** Cutting a fragment (C6) *)

Lemma rebuild_open_tags_app (tags1 tags2 : list entry) :
  rebuild_open_tags (tags1 ++ tags2)
  = rebuild_open_tags tags1 ++ rebuild_open_tags tags2.
Proof. unfold rebuild_open_tags. now rewrite map_app, join_app. Qed.

(** C6.  When the test of the loop finds an overflow, the iteration
    yields one fragment, the accumulated text followed by the closing
    suffix of the tags open at the cut; the new accumulator is the
    reopening prefix followed by the overflowing token, and
    [current_length] is the length of that prefix plus the length of the
    token.  The prefix renders the tags open at the cut one after the
    other in the order in which they were opened, each with its
    attributes. *)
Theorem cut_closes_and_reopens (max_len : Z) (st : locals) (part : string) :
  current_length st + len part
    + len (rebuild_close_tags (get_open_tags (parser st))) > max_len ->
  let tags := get_open_tags (parser st) in
  fst (iteration max_len st part)
    = [join EmptyString (current_fragment st) ++ rebuild_close_tags tags] /\
  current_fragment (snd (iteration max_len st part))
    = [rebuild_open_tags tags; part] /\
  current_length (snd (iteration max_len st part))
    = len (rebuild_open_tags tags) + len part /\
  rebuild_open_tags tags = join EmptyString (map format_open tags) /\
  (forall older e, tags = (older ++ [e])%list ->
      rebuild_open_tags tags = rebuild_open_tags older ++ format_open e).
Proof.
  intros Hov tags. fold (projected st part) in Hov.
  rewrite (iteration_overflow _ _ _ Hov). cbn [fst snd restarted current_fragment current_length].
  repeat split.
  intros older e Ht. rewrite Ht, rebuild_open_tags_app. reflexivity.
Qed.

(** A cut inside an anchor: the anchor is closed, and reopened with its
    attribute in front of the overflowing text. *)
Lemma cut_closes_and_reopens_witness :
  let st := snd (for_loop 25 initial ["<a href='x'>"; "12345"]) in
  fst (iteration 25 st "67890") = ["<a href='x'>12345</a>"] /\
  current_fragment (snd (iteration 25 st "67890"))
    = ["<a href=" ++ dquote ++ "x" ++ dquote ++ ">"; "67890"] /\
  current_length (snd (iteration 25 st "67890")) = 17.
Proof.
  intros st.
  destruct (cut_closes_and_reopens 25 st "67890") as (H1 & H2 & H3 & _).
  - vm_compute. reflexivity.
  - split; [exact H1 | split; [exact H2 | exact H3]].
Defined.

(** ** Tokens are never split (C4) *)



(** ** Characters outside every match (C10) *)

(** C10.  The scan cuts the source into matches of the pattern (a tag
    token, or a run of characters other than ["<"]) and single ["<"]
    characters at which the pattern does not match.  The fragments carry
    the matches only: the token runs of the fragments are exactly the
    matches, so a character outside every match is appended to no
    fragment.  In particular the source ["<"] yields no fragment at all,
    whatever [max_len] is. *)
Theorem unmatched_characters_are_dropped :
  (forall source max_len,
      Tokenizer.flatten (Tokenizer.pieces source) = source /\
      Forall Tokenizer.piece_ok (Tokenizer.pieces source) /\
      exists fs,
        split_message source max_len = map render fs /\
        concat (map core fs) = Tokenizer.matches (Tokenizer.pieces source) /\
        Forall synthetic fs) /\
  (forall max_len, split_message "<" max_len = []).
Proof.
  split.
  - intros source max_len.
    destruct (TokenizerFacts.pieces_sound source) as [Hf Hok].
    split; [exact Hf | split; [exact Hok|]].
    apply split_message_layout.
  - intros max_len. reflexivity.
Qed.

Example stray_lt_dropped :
  Tokenizer.pieces "a<" = [Tokenizer.Matched "a"; Tokenizer.Unmatched "<"%char] /\
  split_message "a<" 10 = ["a"].
Proof. split; reflexivity. Qed.

(** ** The loop over any scanner *)

Section AnyScanner.

Variable sc : scanner.
Variable max_len : Z.

Lemma loop_iteration_overflow (st : Loop.locals sc) (part : string) :
  Loop.current_length st + len part
    + len (rebuild_close_tags (tags_of sc (Loop.parser st))) > max_len ->
  Loop.iteration sc max_len st part =
  ([join EmptyString (Loop.current_fragment st)
      ++ rebuild_close_tags (tags_of sc (Loop.parser st))],
   match feed_of sc (reset_of sc (Loop.parser st)) part with
   | Some fed =>
       Some {| Loop.current_fragment :=
                 [rebuild_open_tags (tags_of sc (Loop.parser st)); part];
               Loop.current_length :=
                 len (rebuild_open_tags (tags_of sc (Loop.parser st))) + len part;
               Loop.parser := fed;
               Loop.close_tags := rebuild_close_tags (tags_of sc (Loop.parser st)) |}
   | None => None
   end).
Proof.
  intros H. unfold Loop.iteration. rewrite (reset_keeps_tags sc).
  destruct (Z.gtb_spec
    (Loop.current_length st + len part
       + len (rebuild_close_tags (tags_of sc (Loop.parser st)))) max_len);
    [reflexivity | lia].
Qed.

Lemma loop_iteration_fits (st : Loop.locals sc) (part : string) :
  Loop.current_length st + len part
    + len (rebuild_close_tags (tags_of sc (Loop.parser st))) <= max_len ->
  Loop.iteration sc max_len st part =
  ([],
   match feed_of sc (Loop.parser st) part with
   | Some fed =>
       Some {| Loop.current_fragment := Loop.current_fragment st ++ [part];
               Loop.current_length := Loop.current_length st + len part;
               Loop.parser := fed;
               Loop.close_tags := rebuild_close_tags (tags_of sc (Loop.parser st)) |}
   | None => None
   end).
Proof.
  intros H. unfold Loop.iteration.
  destruct (Z.gtb_spec
    (Loop.current_length st + len part
       + len (rebuild_close_tags (tags_of sc (Loop.parser st)))) max_len);
    [lia | reflexivity].
Qed.

Lemma loop_for_loop_cons (st : Loop.locals sc) (part : string) (rest : list string) :
  Loop.for_loop sc max_len st (part :: rest) =
  match snd (Loop.iteration sc max_len st part) with
  | Some st' =>
      ((fst (Loop.iteration sc max_len st part)
          ++ fst (Loop.for_loop sc max_len st' rest))%list,
       snd (Loop.for_loop sc max_len st' rest))
  | None => (fst (Loop.iteration sc max_len st part), None)
  end.
Proof.
  cbn [Loop.for_loop]. destruct (Loop.iteration sc max_len st part) as [now [st'|]].
  - cbn [fst snd]. now destruct (Loop.for_loop sc max_len st' rest).
  - reflexivity.
Qed.

Lemma loop_for_loop_snoc (toks : list string) (last : string) : forall st st',
  snd (Loop.for_loop sc max_len st toks) = Some st' ->
  Loop.for_loop sc max_len st (toks ++ [last]) =
  ((fst (Loop.for_loop sc max_len st toks)
      ++ fst (Loop.iteration sc max_len st' last))%list,
   snd (Loop.iteration sc max_len st' last)).
Proof.
  induction toks as [|tok toks IH]; intros st st' H.
  - cbn in H. inversion H; subst. cbn [app]. rewrite loop_for_loop_cons.
    destruct (snd (Loop.iteration sc max_len st' last)) eqn:E.
    + cbn [Loop.for_loop fst snd]. now rewrite app_nil_r.
    + reflexivity.
  - rewrite <- app_comm_cons, !loop_for_loop_cons.
    rewrite loop_for_loop_cons in H.
    destruct (snd (Loop.iteration sc max_len st tok)) as [st1|]; [|discriminate].
    cbn [snd] in H. rewrite (IH st1 st' H). cbn [fst snd].
    now rewrite app_assoc.
Qed.

(** [current_length] is exact for every scanner. *)
Lemma loop_iteration_counted (st st' : Loop.locals sc) (part : string) :
  Loop.current_length st = len (join EmptyString (Loop.current_fragment st)) ->
  snd (Loop.iteration sc max_len st part) = Some st' ->
  Loop.current_length st' = len (join EmptyString (Loop.current_fragment st')).
Proof.
  intros Hc H.
  destruct (Z.le_gt_cases
    (Loop.current_length st + len part
       + len (rebuild_close_tags (tags_of sc (Loop.parser st)))) max_len) as [Hfit|Hov].
  - rewrite (loop_iteration_fits st part Hfit) in H. cbn [snd] in H.
    destruct (feed_of sc (Loop.parser st) part); inversion H; subst.
    cbn [Loop.current_length Loop.current_fragment].
    now rewrite join_app, join_single, len_append, Hc.
  - rewrite (loop_iteration_overflow st part) in H by lia. cbn [snd] in H.
    destruct (feed_of sc (reset_of sc (Loop.parser st)) part); inversion H; subst.
    cbn [Loop.current_length Loop.current_fragment].
    now rewrite join_cons, join_single, len_append.
Qed.

Lemma loop_for_loop_counted (parts : list string) : forall st st',
  Loop.current_length st = len (join EmptyString (Loop.current_fragment st)) ->
  snd (Loop.for_loop sc max_len st parts) = Some st' ->
  Loop.current_length st' = len (join EmptyString (Loop.current_fragment st')).
Proof.
  induction parts as [|part rest IH]; intros st st' Hc H.
  - cbn in H. now inversion H; subst.
  - rewrite loop_for_loop_cons in H.
    destruct (snd (Loop.iteration sc max_len st part)) as [st1|] eqn:E; [|discriminate].
    cbn [snd] in H. apply (IH st1 st'); [|exact H].
    now apply (loop_iteration_counted st st1 part).
Qed.

(** After an iteration that did not raise something is accumulated. *)
Lemma loop_iteration_fills (st st' : Loop.locals sc) (part : string) :
  snd (Loop.iteration sc max_len st part) = Some st' ->
  Loop.current_fragment st' <> [].
Proof.
  intros H.
  destruct (Z.le_gt_cases
    (Loop.current_length st + len part
       + len (rebuild_close_tags (tags_of sc (Loop.parser st)))) max_len) as [Hfit|Hov].
  - rewrite (loop_iteration_fits st part Hfit) in H. cbn [snd] in H.
    destruct (feed_of sc (Loop.parser st) part); inversion H; subst.
    cbn [Loop.current_fragment]. intros E. now apply app_eq_nil in E as [_ E].
  - rewrite (loop_iteration_overflow st part) in H by lia. cbn [snd] in H.
    destruct (feed_of sc (reset_of sc (Loop.parser st)) part); inversion H; subst.
    discriminate.
Qed.

Lemma loop_for_loop_fills (parts : list string) : forall st st',
  parts <> [] ->
  snd (Loop.for_loop sc max_len st parts) = Some st' ->
  Loop.current_fragment st' <> [].
Proof.
  induction parts as [|part rest IH]; intros st st' Hne H; [congruence|].
  rewrite loop_for_loop_cons in H.
  destruct (snd (Loop.iteration sc max_len st part)) as [st1|] eqn:E; [|discriminate].
  cbn [snd] in H. destruct rest as [|next rest].
  - cbn in H. inversion H; subst. now apply (loop_iteration_fills st st' part).
  - apply (IH st1 st'); [discriminate | exact H].
Qed.

(** With a limit that is not positive every token reached overflows,
    and the fragment is yielded before the token is fed. *)
Lemma loop_nonpositive_limit (parts : list string) : forall st,
  max_len <= 0 ->
  0 <= Loop.current_length st ->
  Forall (fun tok => tok <> EmptyString) parts ->
  (snd (Loop.for_loop sc max_len st parts) <> None ->
   List.length (fst (Loop.for_loop sc max_len st parts)) = List.length parts) /\
  (snd (Loop.for_loop sc max_len st parts) = None ->
   (1 <= List.length (fst (Loop.for_loop sc max_len st parts)) <= List.length parts)%nat) /\
  (parts <> [] ->
   hd_error (fst (Loop.for_loop sc max_len st parts))
   = Some (join EmptyString (Loop.current_fragment st)
             ++ rebuild_close_tags (tags_of sc (Loop.parser st)))).
Proof.
  induction parts as [|part rest IH]; intros st Hm Hcl Hne.
  - cbn. repeat split; congruence.
  - inversion Hne as [|? ? Hp Hrest]; subst.
    assert (Hov : Loop.current_length st + len part
                  + len (rebuild_close_tags (tags_of sc (Loop.parser st))) > max_len).
    { pose proof (len_positive part Hp).
      pose proof (len_nonneg (rebuild_close_tags (tags_of sc (Loop.parser st)))). lia. }
    rewrite loop_for_loop_cons, (loop_iteration_overflow st part Hov). cbn [fst snd].
    destruct (feed_of sc (reset_of sc (Loop.parser st)) part) as [fed|].
    + match goal with
      | |- context [Loop.for_loop sc max_len ?s rest] => set (st1 := s)
      end.
      destruct (IH st1 Hm) as (IH1 & IH2 & _); [|exact Hrest|].
      { cbn [st1 Loop.current_length].
        pose proof (len_nonneg (rebuild_open_tags (tags_of sc (Loop.parser st)))).
        pose proof (len_nonneg part). lia. }
      cbn [fst snd app List.length]. split; [|split].
      * intros H. now rewrite (IH1 H).
      * intros H. specialize (IH2 H). lia.
      * reflexivity.
    + cbn [fst snd List.length]. split; [congruence|]. split; [lia | reflexivity].
Qed.

End AnyScanner.

(** The generator of this file is the generator over the scanner of this
    file, which never raises. *)
Lemma model_for_loop (max_len : Z) (parts : list string) : forall st,
  Loop.for_loop model max_len
    {| Loop.current_fragment := current_fragment st;
       Loop.current_length := current_length st;
       Loop.parser := (parser st : tracker model);
       Loop.close_tags := close_tags st |} parts
  = (fst (for_loop max_len st parts),
     Some {| Loop.current_fragment := current_fragment (snd (for_loop max_len st parts));
             Loop.current_length := current_length (snd (for_loop max_len st parts));
             Loop.parser := (parser (snd (for_loop max_len st parts)) : tracker model);
             Loop.close_tags := close_tags (snd (for_loop max_len st parts)) |}).
Proof.
  induction parts as [|part rest IH]; intros st; [reflexivity|].
  rewrite for_loop_cons. cbn [Loop.for_loop fst snd].
  destruct (iteration_cases max_len st part) as [Hov|Hfit].
  - rewrite (iteration_overflow _ _ _ Hov). unfold Loop.iteration, projected in *.
    cbn [Loop.current_length Loop.parser Loop.current_fragment model tags_of
         feed_of reset_of reset].
    destruct (Z.gtb_spec
      (current_length st + len part + len (rebuild_close_tags (get_open_tags (parser st))))
      max_len); [|lia].
    pose proof (IH (restarted st part)) as Hrec.
    cbn [restarted current_fragment current_length parser close_tags] in Hrec.
    cbn [tracker model] in *. rewrite Hrec. reflexivity.
  - rewrite (iteration_fits _ _ _ Hfit). unfold Loop.iteration, projected in *.
    cbn [Loop.current_length Loop.parser Loop.current_fragment model tags_of
         feed_of reset_of reset].
    destruct (Z.gtb_spec
      (current_length st + len part + len (rebuild_close_tags (get_open_tags (parser st))))
      max_len); [lia|].
    pose proof (IH (extended st part)) as Hrec.
    cbn [extended current_fragment current_length parser close_tags] in Hrec.
    cbn [tracker model] in *. rewrite Hrec. reflexivity.
Qed.

Lemma model_split_message (source : string) (max_len : Z) :
  Loop.split_message model source max_len = (split_message source max_len, true).
Proof.
  unfold Loop.split_message, split_message.
  change (Loop.initial model)
    with {| Loop.current_fragment := current_fragment initial;
            Loop.current_length := current_length initial;
            Loop.parser := (parser initial : tracker model);
            Loop.close_tags := close_tags initial |}.
  rewrite model_for_loop.
  destruct (for_loop max_len initial (Tokenizer.finditer source)) as [ys st].
  reflexivity.
Qed.

(** ** A limit that is not positive (C8) *)

(** C8, as stated, fails: [split_message] has no [raise] statement and
    looks at [max_len] in the comparison of the loop only.  With
    [max_len = 0] (or a negative limit) the generator runs to its end and
    yields fragments, where the claim has it stop with an error before
    any fragment. *)
Lemma nonpositive_max_len_yields_fragments :
  split_message "a" 0 = [EmptyString; "a"] /\
  split_message "<p>x</p>" (-1) <> [].
Proof. split; [reflexivity | discriminate]. Qed.

(** C8, amended.  [split_message] does not look at [max_len] before the
    loop and has no [raise] of its own: no configuration error exists,
    and the only statement of it that can fail is [parser.feed], inside
    the inherited scanner, which ends the generator after the fragments
    yielded so far.  With [max_len] zero or negative the call is not
    rejected: a source without token yields nothing; otherwise every
    token reached overflows and a fragment is yielded before the token
    is fed, so the first fragment is the empty string, a run that
    reaches its end yields [n + 1] fragments for [n] tokens, and a run
    that [feed] interrupts has yielded between [1] and [n]. *)
Theorem nonpositive_max_len_is_not_rejected (sc : scanner) (source : string)
    (max_len : Z) :
  max_len <= 0 ->
  let fragments := fst (Loop.split_message sc source max_len) in
  let finished := snd (Loop.split_message sc source max_len) in
  match Tokenizer.finditer source with
  | [] => fragments = [] /\ finished = true
  | _ :: _ =>
      hd_error fragments = Some EmptyString /\
      (finished = true ->
       List.length fragments = S (List.length (Tokenizer.finditer source))) /\
      (finished = false ->
       (1 <= List.length fragments <= List.length (Tokenizer.finditer source))%nat)
  end.
Proof.
  intros Hm. cbv zeta. unfold Loop.split_message.
  pose proof (TokenizerFacts.finditer_nonempty source) as Hne.
  destruct (Tokenizer.finditer source) as [|tok toks] eqn:Et; [split; reflexivity|].
  destruct (loop_nonpositive_limit sc max_len (tok :: toks) (Loop.initial sc) Hm)
    as (H1 & H2 & H3); [simpl; lia | exact Hne |].
  specialize (H3 ltac:(discriminate)).
  cbn [Loop.initial Loop.current_fragment Loop.parser] in H3.
  rewrite (fresh_has_no_tags sc) in H3.
  change (join EmptyString [] ++ rebuild_close_tags []) with EmptyString in H3.
  pose proof (loop_for_loop_fills sc max_len (tok :: toks) (Loop.initial sc)) as Hfill.
  destruct (Loop.for_loop sc max_len (Loop.initial sc) (tok :: toks)) as [ys [st|]].
  - cbn [fst snd] in *. specialize (H1 ltac:(discriminate)).
    specialize (Hfill st ltac:(discriminate) eq_refl).
    split; [|split; [|discriminate]].
    + destruct ys as [|y ys]; [discriminate | exact H3].
    + intros _. rewrite length_app, H1. unfold Loop.after_loop.
      destruct (Loop.current_fragment st); [congruence|]. simpl. lia.
  - cbn [fst snd] in *. split; [exact H3|]. split; [discriminate|].
    intros _. now apply H2.
Qed.

Lemma nonpositive_max_len_is_not_rejected_witness :
  hd_error (fst (Loop.split_message model "<p>x</p>" 0)) = Some EmptyString /\
  (snd (Loop.split_message model "<p>x</p>" 0) = true ->
   List.length (fst (Loop.split_message model "<p>x</p>" 0)) = 4%nat) /\
  (snd (Loop.split_message model "<p>x</p>" 0) = false ->
   (1 <= List.length (fst (Loop.split_message model "<p>x</p>" 0)) <= 3)%nat).
Proof.
  exact (nonpositive_max_len_is_not_rejected model "<p>x</p>" 0 (Z.le_refl 0)).
Defined.

(** ** Boundary scenario 2 (C9) *)

(** C9, as stated, fails: the fifty characters are one token, which is
    not split after its twenty-seventh character. *)
Lemma scenario_2_is_not_split_in_the_text :
  split_message scenario_2 30
  <> ["<p>" ++ repeat_char "A" 27 ++ "</p>"; "<p>" ++ repeat_char "A" 23 ++ "</p>"].
Proof. vm_compute. discriminate. Qed.

(** C9, amended.  For the source ["<p>" + "A"*50 + "</p>"] and
    [max_len = 30] three fragments are yielded.  The text run is one
    token and stays whole: the first fragment is ["<p></p>"], cut before
    the run; the second is ["<p>" + "A"*50 + "</p>"], 57 characters long;
    a third fragment follows for the end tag of the source.  Each of the
    three is tag-balanced, and their texts, put end to end, are the fifty
    characters. *)
Theorem scenario_2_keeps_the_text_whole :
  exists third,
    split_message scenario_2 30
      = ["<p></p>"; "<p>" ++ repeat_char "A" 50 ++ "</p>"; third] /\
    len ("<p>" ++ repeat_char "A" 50 ++ "</p>") = 57 /\
    Forall balanced (split_message scenario_2 30) /\
    join EmptyString (map text_of (split_message scenario_2 30)) = repeat_char "A" 50.
Proof.
  eexists. split; [vm_compute; reflexivity|].
  split; [reflexivity|].
  split; [|vm_compute; reflexivity].
  repeat constructor.
Qed.

(** ** Where the code departs from the specification (C1, C2, C3) *)

(** C1.  The fragment yielded after the loop is closed with the suffix
    computed before the last token was fed.  When the last token is a
    start tag, its closing tag is missing: the only fragment of ["<p>"]
    is ["<p>"], which leaves ["p"] open. *)
Theorem last_start_tag_is_left_open :
  split_message "<p>" 100 = ["<p>"] /\
  open_after "<p>" = [("p", [])] /\
  ~ balanced "<p>".
Proof.
  split; [reflexivity | split; [reflexivity|]].
  unfold balanced. discriminate.
Qed.

Lemma for_loop_last (max_len : Z) (toks : list string) (last : string) (st : locals) :
  snd (for_loop max_len st (toks ++ [last]))
  = snd (iteration max_len (snd (for_loop max_len st toks)) last).
Proof.
  revert st. induction toks as [|tok toks IH]; intros st.
  - cbn [app]. rewrite for_loop_cons. reflexivity.
  - rewrite <- app_comm_cons, !for_loop_cons. cbn [snd]. apply IH.
Qed.

(** The suffix appended after the loop closes the tags that were open
    before the last token was fed, whatever that token does to the
    tracker. *)
Lemma final_suffix_precedes_last_token (max_len : Z) (toks : list string) (last : string) :
  close_tags (snd (for_loop max_len initial (toks ++ [last])))
  = rebuild_close_tags (get_open_tags (parser (snd (for_loop max_len initial toks)))).
Proof.
  rewrite for_loop_last.
  destruct (iteration_cases max_len (snd (for_loop max_len initial toks)) last)
    as [Hov|Hfit].
  - now rewrite (iteration_overflow _ _ _ Hov).
  - now rewrite (iteration_fits _ _ _ Hfit).
Qed.

Example trailing_line_break_left_open :
  split_message "Hello<br>" 100 = ["Hello<br>"] /\
  open_after "Hello<br>" = [("br", [])].
Proof. split; reflexivity. Qed.

(** C2.  The suffix appended after the loop is the one computed in the
    last iteration, before the last token was fed, not the suffix of the
    tags open at the end of the input: after ["<p>Hello world</p>"] no
    tag is open, and ["</p>"] is appended all the same. *)
Theorem final_suffix_is_stale :
  split_message "<p>Hello world</p>" 100 = ["<p>Hello world</p></p>"] /\
  get_open_tags (fold_left feed (Tokenizer.finditer "<p>Hello world</p>") new_parser) = [] /\
  rebuild_close_tags [] = EmptyString.
Proof. repeat split. Qed.

(** C3.  The test of the loop counts the closing tags of the tags open
    before the token, not the closing tag the token itself makes
    necessary when it is a start tag.  With [max_len = 11] the first
    fragment of ["<b>a<i>bbbb"] carries three tokens and is fifteen
    characters long. *)
Theorem start_tag_closing_is_not_counted :
  split_message "<b>a<i>bbbb" 11 = ["<b>a<i></i></b>"; "<b><i>bbbb</i></b>"] /\
  Tokenizer.finditer "<b>a<i>bbbb" = ["<b>"; "a"; "<i>"; "bbbb"] /\
  len "<b>a<i></i></b>" = 15.
Proof. repeat split. Qed.

(** * Further properties of the code *)

(** ** The renderers *)

(** X1.  The two renderers compose over concatenation of the tag list:
    the opening tags keep the order of the list, the closing tags come
    in the opposite order, so that the tag opened last is closed first. *)
Theorem renderers_compose (tags1 tags2 : list entry) :
  rebuild_open_tags (tags1 ++ tags2)
    = rebuild_open_tags tags1 ++ rebuild_open_tags tags2 /\
  rebuild_close_tags (tags1 ++ tags2)
    = rebuild_close_tags tags2 ++ rebuild_close_tags tags1.
Proof.
  unfold rebuild_open_tags, rebuild_close_tags. split.
  - now rewrite map_app, join_app.
  - now rewrite rev_app_distr, map_app, join_app.
Qed.

(** X2.  The closing suffix of a list of tags is as long as the names of
    the tags plus three characters for each, and it is never longer than
    the reopening prefix by more than one character for each tag. *)
Theorem closing_suffix_length (tags : list entry) :
  len (rebuild_close_tags tags) = weight fst tags + 3 * Z.of_nat (List.length tags) /\
  len (rebuild_close_tags tags)
    <= len (rebuild_open_tags tags) + Z.of_nat (List.length tags).
Proof.
  rewrite len_rebuild_close_tags, len_rebuild_open_tags.
  induction tags as [|e tags [IH1 IH2]].
  - split; reflexivity.
  - cbn [weight List.length].
    pose proof (len_format_close e). pose proof (len_format_open e).
    split; lia.
Qed.

(** ** The tracker *)

Lemma last_named_entry (tag : string) (tags : list entry) :
  existsb (named tag) tags = true ->
  exists below attrs above,
    tags = (below ++ (tag, attrs) :: above)%list /\
    existsb (named tag) above = false.
Proof.
  induction tags as [|e tags IH]; [discriminate|].
  cbn [existsb]. intros H.
  destruct (existsb (named tag) tags) eqn:E.
  - destruct (IH eq_refl) as (below & attrs & above & Ht & Ha).
    exists (e :: below), attrs, above. split; [now rewrite Ht | exact Ha].
  - rewrite orb_false_r in H. destruct e as [name attrs].
    unfold named in H. cbn [fst] in H. apply String.eqb_eq in H. subst name.
    exists [], attrs, tags. split; [reflexivity | exact E].
Qed.

(** X3.  An end tag that follows the start tag of the same name undoes
    it: the tracker is back where it was, whatever it held. *)
Theorem end_tag_undoes_start_tag (self : HTMLFragmentParser) (tag : string)
    (attrs : list HTMLParser.attr) :
  handle_endtag (handle_starttag self tag attrs) tag = self.
Proof.
  destruct self as [tags]. unfold handle_starttag, handle_endtag.
  cbn [open_tags]. f_equal.
  pose proof (endtag_loop_hit tag tags [] attrs) as H.
  rewrite app_nil_r in H. apply H. intros e [].
Qed.

(** X4.  An end tag touches entries of its own name only, and at most
    one of them: the entries of every other name stay as they are, in
    order, and the stack is one entry shorter exactly when it held an
    entry of that name. *)
Theorem end_tag_removes_one_of_its_name (self : HTMLFragmentParser) (tag : string) :
  filter (fun e => negb (named tag e)) (get_open_tags (handle_endtag self tag))
    = filter (fun e => negb (named tag e)) (get_open_tags self) /\
  List.length (get_open_tags (handle_endtag self tag))
    = (List.length (get_open_tags self)
       - (if existsb (named tag) (get_open_tags self) then 1 else 0))%nat.
Proof.
  unfold get_open_tags, handle_endtag. cbn [open_tags].
  destruct (existsb (named tag) (open_tags self)) eqn:E.
  - destruct (last_named_entry _ _ E) as (below & attrs & above & Ht & Ha).
    assert (Hh : endtag_loop tag (open_tags self) (List.length (open_tags self))
                 = (below ++ above)%list).
    { rewrite Ht. apply endtag_loop_hit, not_named_anywhere, Ha. }
    rewrite Hh, Ht. split.
    + rewrite !filter_app. cbn [filter].
      assert (Hn : named tag (tag, attrs) = true)
        by (unfold named; cbn [fst]; apply String.eqb_refl).
      now rewrite Hn.
    + rewrite !length_app. cbn [List.length]. lia.
  - rewrite endtag_loop_miss by (apply not_named_anywhere, E).
    split; [reflexivity | lia].
Qed.

(** ** The loop, seen from outside *)

Section LoopInvariants.

Variable max_len : Z.

Lemma iteration_yields_at_most_one st part :
  (List.length (fst (iteration max_len st part)) <= 1)%nat.
Proof.
  destruct (iteration_cases max_len st part) as [Hov|Hfit].
  - rewrite (iteration_overflow _ _ _ Hov). simpl. lia.
  - rewrite (iteration_fits _ _ _ Hfit). simpl. lia.
Qed.

Lemma for_loop_yields_at_most parts : forall st,
  (List.length (fst (for_loop max_len st parts)) <= List.length parts)%nat.
Proof.
  induction parts as [|part rest IH]; intros st; [simpl; lia|].
  rewrite for_loop_cons. cbn [fst]. rewrite length_app.
  pose proof (iteration_yields_at_most_one st part).
  pose proof (IH (snd (iteration max_len st part))).
  cbn [List.length]. lia.
Qed.

Lemma iteration_counted st part :
  counted st -> counted (snd (iteration max_len st part)).
Proof.
  unfold counted. intros H.
  destruct (iteration_cases max_len st part) as [Hov|Hfit].
  - rewrite (iteration_overflow _ _ _ Hov).
    cbn [snd restarted current_length current_fragment].
    now rewrite join_cons, join_single, len_append.
  - rewrite (iteration_fits _ _ _ Hfit).
    cbn [snd extended current_length current_fragment].
    now rewrite join_app, join_single, len_append, H.
Qed.

Lemma for_loop_counted parts : forall st,
  counted st -> counted (snd (for_loop max_len st parts)).
Proof.
  induction parts as [|part rest IH]; intros st H; [exact H|].
  rewrite for_loop_cons. cbn [snd]. apply IH, iteration_counted, H.
Qed.

End LoopInvariants.

Lemma scan_empty (fuel : nat) : Tokenizer.scan fuel EmptyString = [].
Proof. now destruct fuel. Qed.

Lemma finditer_of_token (tok : string) :
  Tokenizer.is_tag_token tok \/ Tokenizer.is_text_token tok ->
  Tokenizer.finditer tok = [tok].
Proof.
  unfold Tokenizer.finditer, Tokenizer.pieces.
  intros [Htag|[Hne Hrun]].
  - unfold Tokenizer.is_tag_token in Htag.
    assert (Ho : Tokenizer.tag_opens tok = true).
    { unfold Tokenizer.tag_match in Htag.
      destruct (Tokenizer.tag_opens tok); [reflexivity | discriminate]. }
    destruct tok as [|c0 [|c1 r]]; try discriminate.
    assert (E : Ascii.eqb c0 Chars.lt_sign = true).
    { simpl in Ho. now apply andb_prop in Ho as [H0 _]. }
    cbn [String.length Tokenizer.scan]. rewrite E, Htag.
    reflexivity.
  - destruct tok as [|c r]; [congruence|].
    assert (E : Ascii.eqb c Chars.lt_sign = false).
    { destruct (Ascii.eqb c Chars.lt_sign) eqn:E; [|reflexivity].
      simpl in Hrun. rewrite E in Hrun. discriminate. }
    cbn [String.length Tokenizer.scan]. rewrite E, Hrun.
    cbn [Tokenizer.matches]. now rewrite scan_empty.
Qed.

Lemma matches_in (tok : string) (ps : list Tokenizer.piece) :
  In tok (Tokenizer.matches ps) -> In (Tokenizer.Matched tok) ps.
Proof.
  induction ps as [|p ps IH]; [intros []|].
  destruct p as [t|c]; cbn [Tokenizer.matches].
  - intros [<-|H]; [now left | right; auto].
  - intros H. right. auto.
Qed.

(** ** The tokenizer *)

(** X5.  Every token is a fixed point of the tokenizer: it is not empty,
    and tokenizing it again gives back that one token. *)
Theorem tokens_tokenize_to_themselves (source tok : string) :
  In tok (Tokenizer.finditer source) ->
  tok <> EmptyString /\ Tokenizer.finditer tok = [tok].
Proof.
  intros Hin. split.
  - pose proof (TokenizerFacts.finditer_nonempty source) as Hne.
    rewrite Forall_forall in Hne. now apply Hne.
  - apply finditer_of_token.
    destruct (TokenizerFacts.pieces_sound source) as [_ Hok].
    rewrite Forall_forall in Hok.
    apply (Hok (Tokenizer.Matched tok)), matches_in, Hin.
Qed.

Lemma tokens_tokenize_to_themselves_witness :
  "<a href='x'>" <> EmptyString /\
  Tokenizer.finditer "<a href='x'>" = ["<a href='x'>"].
Proof.
  apply (tokens_tokenize_to_themselves "see <a href='x'>this</a>" "<a href='x'>").
  vm_compute. right. left. reflexivity.
Defined.

(** ** The generator *)

(** X8.  There is at most one fragment more than there are tokens. *)
Theorem fragments_are_bounded_by_tokens (source : string) (max_len : Z) :
  (List.length (split_message source max_len)
   <= S (List.length (Tokenizer.finditer source)))%nat.
Proof.
  rewrite split_message_generated. unfold generated. rewrite length_app.
  pose proof (for_loop_yields_at_most max_len (Tokenizer.finditer source) initial).
  unfold after_loop.
  destruct (current_fragment (snd (for_loop max_len initial (Tokenizer.finditer source))));
    simpl; lia.
Qed.

(** X9.  The length the loop keeps in [current_length] is, after every
    token, the length of the text accumulated in [current_fragment],
    reopening prefix included. *)
Theorem current_length_is_exact (max_len : Z) (toks : list string) :
  current_length (snd (for_loop max_len initial toks))
  = len (join EmptyString (current_fragment (snd (for_loop max_len initial toks)))).
Proof. apply (for_loop_counted max_len toks initial). reflexivity. Qed.

(** X10.  A source that is plain text (not empty, without ["<"]) is one
    token.  When it fits in [max_len] it is yielded unchanged as the only
    fragment; when it does not, it is yielded unchanged all the same,
    after an empty fragment. *)
Theorem plain_text_is_passed_through (source : string) (max_len : Z) :
  Tokenizer.is_text_token source ->
  split_message source max_len
  = if len source >? max_len then [EmptyString; source] else [source].
Proof.
  intros Ht. rewrite split_message_generated, finditer_of_token by now right.
  rewrite generated_cons, generated_nil.
  assert (Hp : projected initial source = len source).
  { unfold projected. change (current_length initial) with 0.
    change (len (rebuild_close_tags (get_open_tags (parser initial)))) with 0. lia. }
  destruct (Z.gtb_spec (len source) max_len) as [Hgt|Hle].
  - rewrite iteration_overflow by lia. cbn [fst snd app].
    unfold after_loop. cbn [restarted current_fragment close_tags].
    change (rebuild_close_tags (get_open_tags (parser initial))) with EmptyString.
    change (rebuild_open_tags (get_open_tags (parser initial))) with EmptyString.
    rewrite join_cons, join_single. cbn [initial current_fragment].
    cbn. now rewrite append_empty_r.
  - rewrite iteration_fits by lia. cbn [fst snd app].
    unfold after_loop. cbn [extended current_fragment close_tags initial app].
    change (rebuild_close_tags (get_open_tags new_parser)) with EmptyString.
    now rewrite join_single, append_empty_r.
Qed.

Lemma plain_text_is_passed_through_witness :
  split_message "Hello world" 5 = [EmptyString; "Hello world"].
Proof.
  apply (plain_text_is_passed_through "Hello world" 5).
  split; [discriminate | reflexivity].
Defined.

Lemma append_nonempty (a b : string) : a <> EmptyString -> a ++ b <> EmptyString.
Proof. destruct a; [congruence | discriminate]. Qed.

Lemma first_fragment_nonempty (max_len : Z) (parts : list string) : forall st f,
  join EmptyString (current_fragment st) <> EmptyString ->
  hd_error (generated max_len st parts) = Some f ->
  f <> EmptyString.
Proof.
  induction parts as [|part rest IH]; intros st f Hne Hhd.
  - rewrite generated_nil in Hhd. unfold after_loop in Hhd.
    destruct (current_fragment st) as [|x xs] eqn:E; [discriminate|].
    inversion Hhd; subst. now apply append_nonempty.
  - rewrite generated_cons in Hhd.
    destruct (iteration_cases max_len st part) as [Hov|Hfit].
    + rewrite (iteration_overflow _ _ _ Hov) in Hhd. inversion Hhd; subst.
      now apply append_nonempty.
    + rewrite (iteration_fits _ _ _ Hfit) in Hhd. cbn [fst snd app] in Hhd.
      apply (IH (extended st part) f); [|exact Hhd].
      cbn [extended current_fragment]. rewrite join_app.
      now apply append_nonempty.
Qed.

(** X11.  The first fragment is the empty string exactly when the first
    token of the source is by itself longer than [max_len]: the cut comes
    before anything has been accumulated. *)
Theorem first_fragment_empty_iff (source : string) (max_len : Z)
    (first : string) (rest : list string) :
  Tokenizer.finditer source = first :: rest ->
  (hd_error (split_message source max_len) = Some EmptyString <-> len first > max_len).
Proof.
  intros Htoks. rewrite split_message_generated, Htoks, generated_cons.
  assert (Hp : projected initial first = len first).
  { unfold projected. change (current_length initial) with 0.
    change (len (rebuild_close_tags (get_open_tags (parser initial)))) with 0. lia. }
  assert (Hne : first <> EmptyString).
  { pose proof (TokenizerFacts.finditer_nonempty source) as H.
    rewrite Htoks in H. now inversion H. }
  destruct (iteration_cases max_len initial first) as [Hov|Hfit].
  - rewrite (iteration_overflow _ _ _ Hov). split; [lia | reflexivity].
  - rewrite (iteration_fits _ _ _ Hfit). cbn [fst snd app]. split; [|lia].
    intros Hhd. exfalso.
    apply (first_fragment_nonempty max_len rest (extended initial first) EmptyString);
      [|exact Hhd|reflexivity].
    cbn [extended current_fragment initial app]. now rewrite join_single.
Qed.

Lemma first_fragment_empty_iff_witness :
  hd_error (split_message "Hello <b>world</b>" 4) = Some EmptyString <-> len "Hello " > 4.
Proof.
  apply (first_fragment_empty_iff "Hello <b>world</b>" 4 "Hello " ["<b>"; "world"; "</b>"]).
  reflexivity.
Defined.

(** ** The generator over any scanner, seen from outside *)

(** X7.  Whatever the inherited scanner does, a source without token
    yields no fragment and the generator reaches its end; and a
    generator that reaches its end has yielded no fragment exactly when
    the source has no token. *)
Theorem finished_run_yields_iff_token (sc : scanner) (source : string) (max_len : Z) :
  (Tokenizer.finditer source = [] ->
   Loop.split_message sc source max_len = ([], true)) /\
  (snd (Loop.split_message sc source max_len) = true ->
   (fst (Loop.split_message sc source max_len) = [] <-> Tokenizer.finditer source = [])).
Proof.
  unfold Loop.split_message. split.
  - intros ->. reflexivity.
  - intros Hfin. split.
    + intros Hnone.
      destruct (Tokenizer.finditer source) as [|tok toks] eqn:Et; [reflexivity|].
      exfalso.
      pose proof (loop_for_loop_fills sc max_len (tok :: toks) (Loop.initial sc)) as Hfill.
      destruct (Loop.for_loop sc max_len (Loop.initial sc) (tok :: toks)) as [ys [st|]];
        [|discriminate].
      cbn [fst snd] in *. specialize (Hfill st ltac:(discriminate) eq_refl).
      apply app_eq_nil in Hnone as [_ Hnone]. unfold Loop.after_loop in Hnone.
      destruct (Loop.current_fragment st); [congruence | discriminate].
    + intros ->. reflexivity.
Qed.

Lemma finished_run_yields_iff_token_witness :
  Loop.split_message model "<<" 7 = ([], true).
Proof.
  apply (proj1 (finished_run_yields_iff_token model "<<" 7)). reflexivity.
Defined.

(** X12.  Whatever the inherited scanner does, when the generator
    reaches its end the last fragment is within the limit if the last
    token was appended, and is otherwise exactly the reopening prefix of
    the tags open before the last token, the last token, and the closing
    suffix of those same tags. *)
Theorem last_fragment_is_capped (sc : scanner) (source : string) (max_len : Z)
    (toks : list string) (last : string) (st st' : Loop.locals sc) :
  Tokenizer.finditer source = (toks ++ [last])%list ->
  snd (Loop.for_loop sc max_len (Loop.initial sc) toks) = Some st ->
  snd (Loop.iteration sc max_len st last) = Some st' ->
  let opened := tags_of sc (Loop.parser st) in
  let yielded :=
    (fst (Loop.for_loop sc max_len (Loop.initial sc) toks)
       ++ fst (Loop.iteration sc max_len st last))%list in
  exists f,
    Loop.split_message sc source max_len = ((yielded ++ [f])%list, true) /\
    ((fst (Loop.iteration sc max_len st last) = [] /\ len f <= max_len) \/
     (fst (Loop.iteration sc max_len st last)
        = [join EmptyString (Loop.current_fragment st) ++ rebuild_close_tags opened] /\
      f = rebuild_open_tags opened ++ last ++ rebuild_close_tags opened)).
Proof.
  intros Htoks Hst Hst' opened yielded. subst opened yielded.
  pose proof (loop_for_loop_counted sc max_len toks (Loop.initial sc) st eq_refl Hst)
    as Hcount.
  unfold Loop.split_message.
  rewrite Htoks, (loop_for_loop_snoc sc max_len toks last _ st Hst), Hst'.
  exists (join EmptyString (Loop.current_fragment st') ++ Loop.close_tags st').
  split.
  - unfold Loop.after_loop.
    pose proof (loop_iteration_fills sc max_len st st' last Hst') as Hfill.
    destruct (Loop.current_fragment st'); [congruence | reflexivity].
  - destruct (Z.le_gt_cases
      (Loop.current_length st + len last
         + len (rebuild_close_tags (tags_of sc (Loop.parser st)))) max_len) as [Hfit|Hov].
    + left. rewrite (loop_iteration_fits sc max_len st last Hfit) in *.
      cbn [fst snd] in *. split; [reflexivity|].
      destruct (feed_of sc (Loop.parser st) last); inversion Hst'; subst.
      cbn [Loop.current_fragment Loop.close_tags].
      rewrite len_append, join_app, join_single, len_append, <- Hcount. lia.
    + right. rewrite (loop_iteration_overflow sc max_len st last) in * by lia.
      cbn [fst snd] in *. split; [reflexivity|].
      destruct (feed_of sc (reset_of sc (Loop.parser st)) last); inversion Hst'; subst.
      cbn [Loop.current_fragment Loop.close_tags].
      now rewrite join_cons, join_single, append_assoc.
Qed.


(** ** Closing what is open *)

Lemma existsb_names (tag : string) (tags : list entry) :
  existsb (fun m => String.eqb m tag) (names tags) = existsb (named tag) tags.
Proof. induction tags as [|e tags IH]; simpl; [reflexivity | now rewrite IH]. Qed.

Lemma names_endtag (tag : string) (tags : list entry) :
  names (endtag_loop tag tags (List.length tags)) = drop_last tag (names tags).
Proof.
  induction tags as [|e tags IH]; [reflexivity|].
  cbn [names map drop_last]. fold (names tags). rewrite existsb_names.
  destruct (existsb (named tag) tags) eqn:E.
  - destruct (last_named_entry _ _ E) as (below & attrs & above & Ht & Ha).
    assert (H1 : endtag_loop tag (e :: tags) (List.length (e :: tags))
                 = e :: (below ++ above)%list).
    { rewrite Ht. apply (endtag_loop_hit tag (e :: below) above attrs).
      apply not_named_anywhere, Ha. }
    assert (H2 : endtag_loop tag tags (List.length tags) = (below ++ above)%list).
    { rewrite Ht. apply endtag_loop_hit, not_named_anywhere, Ha. }
    rewrite H1, <- IH, H2. reflexivity.
  - destruct e as [name attrs]. cbn [fst].
    destruct (String.eqb name tag) eqn:En.
    + apply String.eqb_eq in En. subst name.
      assert (H1 : endtag_loop tag ((tag, attrs) :: tags)
                     (List.length ((tag, attrs) :: tags)) = tags).
      { apply (endtag_loop_hit tag [] tags attrs), not_named_anywhere, E. }
      exact (f_equal names H1).
    + rewrite endtag_loop_miss; [reflexivity|].
      intros e' [<-|Hin].
      * cbn [fst]. now apply String.eqb_neq.
      * now apply (not_named_anywhere tag tags E).
Qed.

Lemma names_fold_endtag (ns : list string) : forall p,
  names (open_tags (fold_left handle_endtag ns p))
  = fold_left (fun s n => drop_last n s) ns (names (open_tags p)).
Proof.
  induction ns as [|n ns IH]; intros p; [reflexivity|].
  cbn [fold_left]. rewrite IH. f_equal. apply names_endtag.
Qed.

Lemma existsb_snoc_other (tag n : string) (ns : list string) :
  String.eqb n tag = false ->
  existsb (fun m => String.eqb m tag) (ns ++ [n])
  = existsb (fun m => String.eqb m tag) ns.
Proof. intros H. rewrite existsb_app. simpl. now rewrite H, !orb_false_r. Qed.

Lemma drop_last_snoc (tag : string) (ns : list string) :
  drop_last tag (ns ++ [tag]) = ns.
Proof.
  induction ns as [|n ns IH]; simpl.
  - now rewrite String.eqb_refl.
  - rewrite existsb_app. simpl. rewrite String.eqb_refl, orb_true_r. simpl.
    now rewrite IH.
Qed.

Lemma drop_last_snoc_other (tag n : string) (ns : list string) :
  String.eqb n tag = false ->
  drop_last tag (ns ++ [n]) = (drop_last tag ns ++ [n])%list.
Proof.
  intros H. induction ns as [|m ns IH]; simpl.
  - now rewrite H.
  - rewrite (existsb_snoc_other _ _ _ H), IH.
    destruct (existsb (fun m0 => String.eqb m0 tag) ns); [reflexivity|].
    destruct (String.eqb m tag); reflexivity.
Qed.

Lemma closing_names (ns : list string) :
  fold_left (fun s n => drop_last n s) (rev ns) ns = [] /\
  (forall tag, fold_left (fun s n => drop_last n s) (rev ns) (drop_last tag ns) = []).
Proof.
  induction ns as [|n ns [IH1 IH2]] using rev_ind; [split; reflexivity|].
  rewrite rev_app_distr. cbn [rev app fold_left]. split.
  - now rewrite drop_last_snoc.
  - intros tag. destruct (String.eqb n tag) eqn:E.
    + apply String.eqb_eq in E. subst tag. rewrite drop_last_snoc. apply IH2.
    + rewrite (drop_last_snoc_other _ _ _ E), drop_last_snoc. apply IH2.
Qed.

Lemma no_names_no_tags (p : HTMLFragmentParser) :
  names (open_tags p) = [] -> p = new_parser.
Proof.
  destruct p as [tags]. cbn [open_tags]. unfold names. intros H.
  apply map_eq_nil in H. now subst.
Qed.

(** X13.  The closing suffix names the open tags from the one opened
    last to the one opened first, and end tags handled in that order
    empty the tracker, whatever it holds, also when an end tag of the
    source has been handled just before (the suffix after the loop is
    the one of the tags open before the last token). *)
Theorem end_tags_in_closing_order_empty_the_tracker (tags : list entry) :
  rebuild_close_tags tags
    = join EmptyString (map (fun tag => "</" ++ tag ++ ">") (rev (map fst tags))) /\
  fold_left handle_endtag (rev (map fst tags)) {| open_tags := tags |} = new_parser /\
  (forall tag,
      fold_left handle_endtag (rev (map fst tags))
        (handle_endtag {| open_tags := tags |} tag) = new_parser).
Proof.
  split; [|split].
  - unfold rebuild_close_tags, format_close. now rewrite <- map_rev, map_map.
  - apply no_names_no_tags. rewrite names_fold_endtag. cbn [open_tags].
    apply (closing_names (names tags)).
  - intros tag. apply no_names_no_tags. rewrite names_fold_endtag.
    cbn [handle_endtag open_tags]. rewrite names_endtag.
    apply (closing_names (names tags)).
Qed.

(** With [max_len = 20] the end tag of the paragraph is appended to the
    third fragment, which keeps to the limit. *)
Lemma last_fragment_is_capped_witness :
  exists f,
    Loop.split_message model "<p>Hello <b>world</b></p>" 20
      = (["<p>Hello <b></b></p>"; "<p><b>world</b></p>"; f], true) /\
    len f <= 20.
Proof.
  destruct (last_fragment_is_capped model "<p>Hello <b>world</b></p>" 20
              ["<p>"; "Hello "; "<b>"; "world"; "</b>"] "</p>" _ _
              eq_refl eq_refl eq_refl) as [f [Hsplit Hcase]].
  exists f. split; [exact Hsplit|].
  destruct Hcase as [[_ Hlen]|[Hcut _]]; [exact Hlen | discriminate Hcut].
Defined.

